(** * Radial piano: note lifecycle, gesture session and hit-testing

    A shallow embedding of the JavaScript sources

    - [piano-experimental/audio.js]   (class [AudioEngine], with [pendingNotes])
    - the monolithic script            (classes [GeometryEngine], [AudioEngine]
                                        without [pendingNotes], [InteractionManager])

    Maps ([Map]) are [gmap]s, the insertion-ordered [Set] of pressed slices is a
    duplicate-free list, asynchronous continuations and timers are explicit
    tables of the host environment.  JavaScript numbers are reached through
    the interface [JSNumber]: the numbers of the sources are IEEE binary64
    ([binary64_number]); the exact rationals ([exact_number]) give the
    real-number reading of the same expressions, the arithmetic in which
    the specification states its formulas and against which the rounding
    of the code is measured. *)

From Stdlib Require Import ZArith QArith Qround Floats Lia Lqa.
From stdpp Require Import gmap strings pretty list.

Local Open Scope Z_scope.

(** ** JavaScript numbers *)

Module JS.

(** The arithmetic the sources use on [Number]s.  [math_floor] and
    [math_round] return the (integral) result as an integer. *)
Class JSNumber (num : Type) := {
  num_of_Z : Z → num;
  num_add : num → num → num;
  num_sub : num → num → num;
  num_div : num → num → num;
  num_rem : num → num → num;   (* the operator [%]: sign of the dividend *)
  num_gtb : num → num → bool;
  num_ltb : num → num → bool;
  math_floor : num → Z;
  math_round : num → Z
}.

(** *** Real-number reading: rationals

    This is not the arithmetic the sources run: it has no rounding, no
    NaN and no infinities.  It evaluates the formulas of the
    specification and the source's expressions as they would come out
    without rounding; what the code returns is stated with
    [binary64_number] below, or for every instance of [JSNumber]. *)

(** Truncation toward zero, the quotient behind [%]. *)
Definition Qtrunc (q : Q) : Z :=
  if Qle_bool 0 q then Qfloor q else Qceiling q.

Definition Qrem (x y : Q) : Q :=
  (x - y * inject_Z (Qtrunc (x / y)))%Q.

(** [Math.round]: the nearest integer, ties toward +infinity. *)
Definition Qround_half_up (x : Q) : Z := Qfloor (x + (1 # 2))%Q.

Definition Qltb (x y : Q) : bool := negb (Qle_bool y x).

#[export] Instance exact_number : JSNumber Q := {
  num_of_Z := inject_Z;
  num_add := Qplus;
  num_sub := Qminus;
  num_div := Qdiv;
  num_rem := Qrem;
  num_gtb := fun x y => Qltb y x;
  num_ltb := Qltb;
  math_floor := Qfloor;
  math_round := Qround_half_up
}.

(** *** The numbers of the sources: IEEE binary64 (primitive floats) *)

(** A finite float as [m * 2^e] with a signed integer mantissa
    ([None] for NaN and the infinities). *)
Definition float_dyadic (f : float) : option (Z * Z) :=
  match Prim2SF f with
  | S754_zero _ => Some (0, 0)
  | S754_finite s m e => Some (if s then Z.neg m else Z.pos m, e)
  | _ => None
  end.

(** The float with value [m * 2^e]; exact whenever that value is
    representable with [|m| < 2^53]. *)
Definition dyadic_float (negative : bool) (m e : Z) : float :=
  match m with
  | Z0 => if negative then neg_zero else zero
  | Z.pos p => SF2Prim (S754_finite false p e)
  | Z.neg p => SF2Prim (S754_finite true p e)
  end.

(** [x % y] on finite operands: the remainder of the truncated division,
    computed on the exact values (it is always representable); NaN when
    [y] is zero or an operand is not finite. *)
Definition float_rem (x y : float) : float :=
  match float_dyadic x, float_dyadic y with
  | Some (mx, ex), Some (my, ey) =>
      if my =? 0 then nan
      else
        let e := Z.min ex ey in
        let X := mx * 2 ^ (ex - e) in
        let Y := my * 2 ^ (ey - e) in
        dyadic_float (get_sign x) (Z.rem X Y) e
  | _, _ => nan
  end.

(** [Math.floor] of a finite float, as an integer (0 stands in for the
    non-finite cases, which have no integer value). *)
Definition float_floor (x : float) : Z :=
  match float_dyadic x with
  | Some (m, e) => if 0 <=? e then m * 2 ^ e else m / 2 ^ (- e)
  | None => 0
  end.

(** [Math.round] of a finite float: floor of the exact [x + 1/2]. *)
Definition float_round (x : float) : Z :=
  match float_dyadic x with
  | Some (m, e) => if 0 <=? e then m * 2 ^ e else (2 * m + 2 ^ (- e)) / 2 ^ (- e + 1)
  | None => 0
  end.

Definition float_of_Z (z : Z) : float :=
  match z with
  | Z0 => zero
  | Z.pos p => SF2Prim (S754_finite false p 0)
  | Z.neg p => SF2Prim (S754_finite true p 0)
  end.

#[export] Instance binary64_number : JSNumber float := {
  num_of_Z := float_of_Z;
  num_add := PrimFloat.add;
  num_sub := PrimFloat.sub;
  num_div := PrimFloat.div;
  num_rem := float_rem;
  num_gtb := fun x y => PrimFloat.ltb y x;
  num_ltb := PrimFloat.ltb;
  math_floor := float_floor;
  math_round := float_round
}.

End JS.

(** ** GeometryEngine *)

Module Geometry.
Import JS.

Section WithNumbers.
Context {num : Type} `{JSNumber num}.

(** [getSliceIndexAtPoint(x, y, center, sliceCount)].  The polar angle
    [Math.atan2(dy, dx) * 180 / Math.PI] computed by [getAngleFromPoint]
    is the argument [polar] (degrees, in [-180, 180]); [rotation] is
    [this.state.get('rotation')]. *)
Definition getSliceIndexAtPoint (polar rotation : num) (sliceCount : Z) : Z :=
  let angle := polar in
  let angle := num_rem (num_add angle (num_of_Z 360)) (num_of_Z 360) in
  let angle := num_rem (num_add (num_sub angle rotation) (num_of_Z 360)) (num_of_Z 360) in
  let anglePerSlice := num_div (num_of_Z 360) (num_of_Z sliceCount) in
  math_floor (num_div angle anglePerSlice).

End WithNumbers.

(** The hit-test as the specification words it, over the rationals:
    normalise the angle into [0, 360), subtract the rotation modulo 360,
    divide by [360 / sliceCount], floor. *)
Definition Qmod360 (x : Q) : Q := (x - 360 * inject_Z (Qfloor (x / 360)))%Q.

Definition sliceIndexAtPoint_spec (polar rotation : Q) (sliceCount : Z) : Z :=
  Qfloor (Qmod360 (Qmod360 polar - rotation) / (360 / inject_Z sliceCount))%Q.

End Geometry.

(** ** AudioEngine (audio.js) *)

Module Audio.

Definition C_MAJOR_SCALE : list string := ["C"; "D"; "E"; "F"; "G"; "A"; "B"].

(** [getNote(index)]: [index % 7] selects the letter, [3 + floor(index / 7)]
    the octave; an index outside the array reads [undefined]. *)
Definition getNote (index : Z) : string :=
  let noteInScale := Z.rem index 7 in
  let octave := 3 + index / 7 in
  (if noteInScale <? 0 then "undefined"
   else default "undefined" (C_MAJOR_SCALE !! Z.to_nat noteInScale))
  +:+ pretty octave.

Arguments getNote : simpl never.

(** The value stored in [pendingNotes].  The object is reachable only
    through the map (no caller keeps a reference to it), so it is held by
    value. *)
Record PendingState := { shouldCancel : bool; note : string }.

(** Calls made on the synthesizer. *)
Inductive SynthCall :=
  | TriggerAttack (n : string)
  | TriggerRelease (n : string).

(** What a suspended [playNote] call, and later its auto-lock timer,
    closes over: [index] and whether an [onAutoLock] callback was passed
    ([note] is [getNote index]). *)
Record Closure := { k_index : Z; k_onAutoLock : bool }.

(** The engine object together with the part of the host it talks to. *)
Record World := mkWorld {
  (* fields of the AudioEngine object *)
  synth : bool;                          (* [this.synth] is not null *)
  initPromise : bool;                    (* [this.initPromise] is cached *)
  pendingNotes : gmap Z PendingState;
  activeNotes : gmap Z string;
  lockedDrones : gmap Z string;
  lockTimeouts : gmap Z nat;             (* index -> timeout id *)
  (* host environment *)
  suspended : gmap nat Closure;          (* [playNote] calls waiting at [await this.init()] *)
  nextCall : nat;
  timers : gmap nat Closure;             (* timeouts set and neither fired nor cleared *)
  nextTimer : nat;
  synthLog : list SynthCall;             (* calls on the synthesizer, oldest first *)
  autoLockLog : list Z                   (* [onAutoLock(index)] invocations *)
}.

Definition initial : World :=
  mkWorld false false ∅ ∅ ∅ ∅ ∅ 0 ∅ 0 [] [].

Definition with_synth (b : bool) (w : World) : World :=
  mkWorld b (initPromise w) (pendingNotes w) (activeNotes w) (lockedDrones w)
    (lockTimeouts w) (suspended w) (nextCall w) (timers w) (nextTimer w)
    (synthLog w) (autoLockLog w).

Definition with_initPromise (b : bool) (w : World) : World :=
  mkWorld (synth w) b (pendingNotes w) (activeNotes w) (lockedDrones w)
    (lockTimeouts w) (suspended w) (nextCall w) (timers w) (nextTimer w)
    (synthLog w) (autoLockLog w).

Definition with_pendingNotes (m : gmap Z PendingState) (w : World) : World :=
  mkWorld (synth w) (initPromise w) m (activeNotes w) (lockedDrones w)
    (lockTimeouts w) (suspended w) (nextCall w) (timers w) (nextTimer w)
    (synthLog w) (autoLockLog w).

Definition with_activeNotes (m : gmap Z string) (w : World) : World :=
  mkWorld (synth w) (initPromise w) (pendingNotes w) m (lockedDrones w)
    (lockTimeouts w) (suspended w) (nextCall w) (timers w) (nextTimer w)
    (synthLog w) (autoLockLog w).

Definition with_lockedDrones (m : gmap Z string) (w : World) : World :=
  mkWorld (synth w) (initPromise w) (pendingNotes w) (activeNotes w) m
    (lockTimeouts w) (suspended w) (nextCall w) (timers w) (nextTimer w)
    (synthLog w) (autoLockLog w).

Definition with_lockTimeouts (m : gmap Z nat) (w : World) : World :=
  mkWorld (synth w) (initPromise w) (pendingNotes w) (activeNotes w)
    (lockedDrones w) m (suspended w) (nextCall w) (timers w) (nextTimer w)
    (synthLog w) (autoLockLog w).

Definition with_suspended (m : gmap nat Closure) (n : nat) (w : World) : World :=
  mkWorld (synth w) (initPromise w) (pendingNotes w) (activeNotes w)
    (lockedDrones w) (lockTimeouts w) m n (timers w) (nextTimer w)
    (synthLog w) (autoLockLog w).

Definition with_timers (m : gmap nat Closure) (n : nat) (w : World) : World :=
  mkWorld (synth w) (initPromise w) (pendingNotes w) (activeNotes w)
    (lockedDrones w) (lockTimeouts w) (suspended w) (nextCall w) m n
    (synthLog w) (autoLockLog w).

Definition with_synthLog (l : list SynthCall) (w : World) : World :=
  mkWorld (synth w) (initPromise w) (pendingNotes w) (activeNotes w)
    (lockedDrones w) (lockTimeouts w) (suspended w) (nextCall w) (timers w)
    (nextTimer w) l (autoLockLog w).

Definition with_autoLockLog (l : list Z) (w : World) : World :=
  mkWorld (synth w) (initPromise w) (pendingNotes w) (activeNotes w)
    (lockedDrones w) (lockTimeouts w) (suspended w) (nextCall w) (timers w)
    (nextTimer w) (synthLog w) l.

(** *** Host primitives *)

Definition triggerAttack (n : string) (w : World) : World :=
  with_synthLog (synthLog w ++ [TriggerAttack n]) w.

Definition triggerRelease (n : string) (w : World) : World :=
  with_synthLog (synthLog w ++ [TriggerRelease n]) w.

(** [setTimeout(callback, lockTime)]: the host hands out a fresh id. *)
Definition setTimeout (k : Closure) (w : World) : nat * World :=
  (nextTimer w, with_timers (<[nextTimer w := k]> (timers w)) (S (nextTimer w)) w).

(** [clearTimeout(id)]: nothing happens for an id that is not scheduled. *)
Definition clearTimeout (id : nat) (w : World) : World :=
  with_timers (delete id (timers w)) (nextTimer w) w.

(** *** Methods *)

(** The synchronous part of [init()] / [_doInit()]: cache the promise and
    create the synthesizer; [Tone.context.resume()] is awaited by the host. *)
Definition _doInit (w : World) : World :=
  if synth w then w else with_synth true w.

Definition init (w : World) : World :=
  if initPromise w then w else _doInit (with_initPromise true w).

(** [playNote(index, onAutoLock)] up to [await this.init()].  A call that
    gets that far is parked in [suspended]. *)
Definition playNote (index : Z) (onAutoLock : bool) (w : World) : World :=
  let note := getNote index in
  match lockedDrones w !! index with
  | Some _ => w
  | None =>
      match activeNotes w !! index with
      | Some _ => w
      | None =>
          let w := with_pendingNotes
                     (<[index := {| shouldCancel := false; note := note |}]> (pendingNotes w)) w in
          let w := init w in
          with_suspended
            (<[nextCall w := {| k_index := index; k_onAutoLock := onAutoLock |}]> (suspended w))
            (S (nextCall w)) w
      end
  end.

(** [lockDrone(index)]. *)
Definition lockDrone (index : Z) (w : World) : World :=
  match activeNotes w !! index with
  | Some note =>
      let w := with_lockedDrones (<[index := note]> (lockedDrones w)) w in
      match lockTimeouts w !! index with
      | Some id =>
          let w := clearTimeout id w in
          with_lockTimeouts (delete index (lockTimeouts w)) w
      | None => w
      end
  | None => w
  end.

(** The rest of [playNote], run when the awaited promise has resolved. *)
Definition playNote_resumed (k : Closure) (w : World) : World :=
  let index := k_index k in
  let note := getNote index in
  let cancelled :=
    match pendingNotes w !! index with
    | None => true
    | Some pendingState => shouldCancel pendingState
    end in
  if cancelled then with_pendingNotes (delete index (pendingNotes w)) w
  else
    let w := triggerAttack note w in
    let w := with_pendingNotes (delete index (pendingNotes w)) w in
    let w := with_activeNotes (<[index := note]> (activeNotes w)) w in
    let '(timeoutId, w) := setTimeout k w in
    with_lockTimeouts (<[index := timeoutId]> (lockTimeouts w)) w.

(** The callback given to [setTimeout] in [playNote]. *)
Definition autoLock_callback (k : Closure) (w : World) : World :=
  let w := lockDrone (k_index k) w in
  if k_onAutoLock k then with_autoLockLog (autoLockLog w ++ [k_index k]) w else w.

(** [stopNote(index, force = false)]. *)
Definition stopNote (index : Z) (force : bool) (w : World) : World :=
  if bool_decide (is_Some (lockedDrones w !! index)) && negb force then w
  else
    match activeNotes w !! index with
    | Some note =>
        let w := if synth w then triggerRelease note w else w in
        let w := with_activeNotes (delete index (activeNotes w)) w in
        match lockTimeouts w !! index with
        | Some id =>
            let w := clearTimeout id w in
            with_lockTimeouts (delete index (lockTimeouts w)) w
        | None => w
        end
    | None =>
        match pendingNotes w !! index with
        | Some pendingState =>
            with_pendingNotes
              (<[index := {| shouldCancel := true; note := note pendingState |}]> (pendingNotes w)) w
        | None => w
        end
    end.

(** [unlockDrone(index)]. *)
Definition unlockDrone (index : Z) (w : World) : World :=
  match lockedDrones w !! index with
  | Some note =>
      let w := with_lockedDrones (delete index (lockedDrones w)) w in
      let w := if synth w then triggerRelease note w else w in
      with_activeNotes (delete index (activeNotes w)) w
  | None => w
  end.

Definition isLocked (index : Z) (w : World) : bool :=
  bool_decide (is_Some (lockedDrones w !! index)).

(** [clearTimeout] for every id of a list. *)
Definition clearTimeouts (ids : list nat) (w : World) : World :=
  with_timers (foldr delete (timers w) ids) (nextTimer w) w.

(** [stopAllNotes()].  The [forEach] loops run over [map_to_list]; the
    release calls of one loop are for distinct keys. *)
Definition stopAllNotes (w : World) : World :=
  let w := with_pendingNotes
             ((λ p, {| shouldCancel := true; note := note p |}) <$> pendingNotes w) w in
  let w := with_pendingNotes ∅ w in
  let w := if synth w
           then with_synthLog (synthLog w ++ (TriggerRelease <$> (map_to_list (activeNotes w)).*2)) w
           else w in
  let w := with_activeNotes ∅ w in
  let w := if synth w
           then with_synthLog (synthLog w ++ (TriggerRelease <$> (map_to_list (lockedDrones w)).*2)) w
           else w in
  let w := with_lockedDrones ∅ w in
  let w := clearTimeouts (map_to_list (lockTimeouts w)).*2 w in
  with_lockTimeouts ∅ w.

(** *** Event loop *)

(** What can happen to the engine, one run-to-completion step each: a
    method call, the resumption of a parked [playNote] (its promise has
    resolved), or a timeout firing. *)
Inductive Op :=
  | Play (index : Z) (onAutoLock : bool)
  | Stop (index : Z) (force : bool)
  | Lock (index : Z)
  | Unlock (index : Z)
  | StopAll
  | Resume (call : nat)
  | Fire (timeoutId : nat).

Definition resume (call : nat) (w : World) : World :=
  match suspended w !! call with
  | Some k => playNote_resumed k (with_suspended (delete call (suspended w)) (nextCall w) w)
  | None => w
  end.

Definition fire (id : nat) (w : World) : World :=
  match timers w !! id with
  | Some k => autoLock_callback k (with_timers (delete id (timers w)) (nextTimer w) w)
  | None => w
  end.

Definition step (o : Op) (w : World) : World :=
  match o with
  | Play index cb => playNote index cb w
  | Stop index force => stopNote index force w
  | Lock index => lockDrone index w
  | Unlock index => unlockDrone index w
  | StopAll => stopAllNotes w
  | Resume call => resume call w
  | Fire id => fire id w
  end.

Definition run (ops : list Op) (w : World) : World :=
  fold_left (λ w o, step o w) ops w.

Definition reachable (w : World) : Prop := ∃ ops, w = run ops initial.

(** The lifecycle tag of an index, read off the maps in the order the
    methods test them. *)
Inductive Tag := Idle | Pending | Active | Locked.

Definition tag (index : Z) (w : World) : Tag :=
  match lockedDrones w !! index with
  | Some _ => Locked
  | None =>
      match activeNotes w !! index with
      | Some _ => Active
      | None =>
          match pendingNotes w !! index with
          | Some _ => Pending
          | None => Idle
          end
      end
  end.

(** What holds of the maps in every state the event loop can reach. *)
Record Inv (w : World) : Prop := {
  inv_pending_active : ∀ i, is_Some (pendingNotes w !! i) → activeNotes w !! i = None;
  inv_pending_locked : ∀ i, is_Some (pendingNotes w !! i) → lockedDrones w !! i = None;
  inv_timeout_active : ∀ i, is_Some (lockTimeouts w !! i) → is_Some (activeNotes w !! i);
  inv_locked_timeout : ∀ i, is_Some (lockedDrones w !! i) → lockTimeouts w !! i = None;
  inv_timers : ∀ t k, timers w !! t = Some k → lockTimeouts w !! k_index k = Some t;
  inv_active_note : ∀ i n, activeNotes w !! i = Some n → n = getNote i;
  inv_locked_note : ∀ i n, lockedDrones w !! i = Some n → n = getNote i
}.

(** No parked [playNote] for [index] can go through: the index is neither
    active nor locked, and its pending record, if any, is flagged. *)
Definition cancelled (index : Z) (w : World) : Prop :=
  activeNotes w !! index = None ∧
  lockedDrones w !! index = None ∧
  ∀ p, pendingNotes w !! index = Some p → shouldCancel p = true.

(** An operation that starts a note at [index] anew. *)
Definition restarts (index : Z) (o : Op) : bool :=
  match o with
  | Play i _ => bool_decide (i = index)
  | _ => false
  end.

End Audio.


(** ** AudioEngine of the monolithic script (no [pendingNotes]) *)

Module LegacyAudio.

Definition getNote := Audio.getNote.

Record Closure := { k_index : Z; k_onAutoLock : bool }.

Record World := mkWorld {
  (* fields of the AudioEngine object *)
  synth : bool;
  activeNotes : gmap Z string;
  lockedDrones : gmap Z string;
  lockTimeouts : gmap Z nat;
  (* host environment *)
  suspended : gmap nat Closure;          (* [playNote] calls waiting at [await this.init()] *)
  nextCall : nat;
  timers : gmap nat Closure;
  nextTimer : nat;
  synthLog : list Audio.SynthCall;
  autoLockLog : list Z
}.

Definition initial : World := mkWorld false ∅ ∅ ∅ ∅ 0 ∅ 0 [] [].

Definition with_synth (b : bool) (w : World) : World :=
  mkWorld b (activeNotes w) (lockedDrones w) (lockTimeouts w) (suspended w)
    (nextCall w) (timers w) (nextTimer w) (synthLog w) (autoLockLog w).

Definition with_activeNotes (m : gmap Z string) (w : World) : World :=
  mkWorld (synth w) m (lockedDrones w) (lockTimeouts w) (suspended w)
    (nextCall w) (timers w) (nextTimer w) (synthLog w) (autoLockLog w).

Definition with_lockedDrones (m : gmap Z string) (w : World) : World :=
  mkWorld (synth w) (activeNotes w) m (lockTimeouts w) (suspended w)
    (nextCall w) (timers w) (nextTimer w) (synthLog w) (autoLockLog w).

Definition with_lockTimeouts (m : gmap Z nat) (w : World) : World :=
  mkWorld (synth w) (activeNotes w) (lockedDrones w) m (suspended w)
    (nextCall w) (timers w) (nextTimer w) (synthLog w) (autoLockLog w).

Definition with_suspended (m : gmap nat Closure) (n : nat) (w : World) : World :=
  mkWorld (synth w) (activeNotes w) (lockedDrones w) (lockTimeouts w) m n
    (timers w) (nextTimer w) (synthLog w) (autoLockLog w).

Definition with_timers (m : gmap nat Closure) (n : nat) (w : World) : World :=
  mkWorld (synth w) (activeNotes w) (lockedDrones w) (lockTimeouts w)
    (suspended w) (nextCall w) m n (synthLog w) (autoLockLog w).

Definition with_synthLog (l : list Audio.SynthCall) (w : World) : World :=
  mkWorld (synth w) (activeNotes w) (lockedDrones w) (lockTimeouts w)
    (suspended w) (nextCall w) (timers w) (nextTimer w) l (autoLockLog w).

Definition with_autoLockLog (l : list Z) (w : World) : World :=
  mkWorld (synth w) (activeNotes w) (lockedDrones w) (lockTimeouts w)
    (suspended w) (nextCall w) (timers w) (nextTimer w) (synthLog w) l.

Definition triggerAttack (n : string) (w : World) : World :=
  with_synthLog (synthLog w ++ [Audio.TriggerAttack n]) w.

Definition triggerRelease (n : string) (w : World) : World :=
  with_synthLog (synthLog w ++ [Audio.TriggerRelease n]) w.

Definition setTimeout (k : Closure) (w : World) : nat * World :=
  (nextTimer w, with_timers (<[nextTimer w := k]> (timers w)) (S (nextTimer w)) w).

Definition clearTimeout (id : nat) (w : World) : World :=
  with_timers (delete id (timers w)) (nextTimer w) w.

(** The synchronous part of [init()]: create the synthesizer. *)
Definition init (w : World) : World :=
  if synth w then w else with_synth true w.

(** [playNote(index, onAutoLock)] starts with [await this.init()]: the
    whole body runs after the suspension. *)
Definition playNote (index : Z) (onAutoLock : bool) (w : World) : World :=
  let w := init w in
  with_suspended
    (<[nextCall w := {| k_index := index; k_onAutoLock := onAutoLock |}]> (suspended w))
    (S (nextCall w)) w.

Definition playNote_resumed (k : Closure) (w : World) : World :=
  let index := k_index k in
  let note := getNote index in
  match lockedDrones w !! index with
  | Some _ => w
  | None =>
      match activeNotes w !! index with
      | None =>
          let w := triggerAttack note w in
          let w := with_activeNotes (<[index := note]> (activeNotes w)) w in
          let '(timeoutId, w) := setTimeout k w in
          with_lockTimeouts (<[index := timeoutId]> (lockTimeouts w)) w
      | Some _ => w
      end
  end.

Definition lockDrone (index : Z) (w : World) : World :=
  match activeNotes w !! index with
  | Some note =>
      let w := with_lockedDrones (<[index := note]> (lockedDrones w)) w in
      match lockTimeouts w !! index with
      | Some id =>
          let w := clearTimeout id w in
          with_lockTimeouts (delete index (lockTimeouts w)) w
      | None => w
      end
  | None => w
  end.

Definition autoLock_callback (k : Closure) (w : World) : World :=
  let w := lockDrone (k_index k) w in
  if k_onAutoLock k then with_autoLockLog (autoLockLog w ++ [k_index k]) w else w.

Definition stopNote (index : Z) (force : bool) (w : World) : World :=
  if bool_decide (is_Some (lockedDrones w !! index)) && negb force then w
  else
    match activeNotes w !! index with
    | Some note =>
        let w := if synth w then triggerRelease note w else w in
        let w := with_activeNotes (delete index (activeNotes w)) w in
        match lockTimeouts w !! index with
        | Some id =>
            let w := clearTimeout id w in
            with_lockTimeouts (delete index (lockTimeouts w)) w
        | None => w
        end
    | None => w
    end.

Definition unlockDrone (index : Z) (w : World) : World :=
  match lockedDrones w !! index with
  | Some note =>
      let w := with_lockedDrones (delete index (lockedDrones w)) w in
      let w := if synth w then triggerRelease note w else w in
      with_activeNotes (delete index (activeNotes w)) w
  | None => w
  end.

Definition isLocked (index : Z) (w : World) : bool :=
  bool_decide (is_Some (lockedDrones w !! index)).

Definition stopAllNotes (w : World) : World :=
  let w := if synth w
           then with_synthLog (synthLog w ++ (Audio.TriggerRelease <$> (map_to_list (activeNotes w)).*2)) w
           else w in
  let w := with_activeNotes ∅ w in
  let w := if synth w
           then with_synthLog (synthLog w ++ (Audio.TriggerRelease <$> (map_to_list (lockedDrones w)).*2)) w
           else w in
  let w := with_lockedDrones ∅ w in
  let w := with_timers (foldr delete (timers w) (map_to_list (lockTimeouts w)).*2) (nextTimer w) w in
  with_lockTimeouts ∅ w.

Definition resume (call : nat) (w : World) : World :=
  match suspended w !! call with
  | Some k => playNote_resumed k (with_suspended (delete call (suspended w)) (nextCall w) w)
  | None => w
  end.

Definition fire (id : nat) (w : World) : World :=
  match timers w !! id with
  | Some k => autoLock_callback k (with_timers (delete id (timers w)) (nextTimer w) w)
  | None => w
  end.

End LegacyAudio.

(** ** InteractionManager *)

Module Interaction.
Import JS.

(** What the manager uses of [this.audio]. *)
Class NoteEngine (E : Type) := {
  engine_isLocked : Z → E → bool;
  engine_playNote : Z → E → E;        (* [playNote(index, callback)], up to its [await] *)
  engine_stopNote : Z → E → E;        (* [stopNote(index)] *)
  engine_unlockDrone : Z → E → E
}.

#[export] Instance audio_engine : NoteEngine Audio.World := {
  engine_isLocked := Audio.isLocked;
  engine_playNote := fun index => Audio.playNote index true;
  engine_stopNote := fun index => Audio.stopNote index false;
  engine_unlockDrone := Audio.unlockDrone
}.

#[export] Instance legacy_engine : NoteEngine LegacyAudio.World := {
  engine_isLocked := LegacyAudio.isLocked;
  engine_playNote := fun index => LegacyAudio.playNote index true;
  engine_stopNote := fun index => LegacyAudio.stopNote index false;
  engine_unlockDrone := LegacyAudio.unlockDrone
}.

(** A DOM element as the handlers tell them apart: a [.slice] path (with
    its [data-slice]), the [#innerRotationPlate], or anything else. *)
Inductive Target :=
  | TSlice (index : Z)
  | TInnerPlate
  | TOther.

#[export] Instance Target_eq_dec : EqDecision Target.
Proof. solve_decision. Defined.

(** Calls made on the renderer and on the cursor style. *)
Inductive VisualCall :=
  | PressSlice (index : Z)
  | ReleaseSlice (index : Z)
  | UnlockSlice (index : Z)
  | ActivateGripper
  | DeactivateGripper
  | Render
  | Cursor (style : string).

Section WithNumbersAndEngine.
Context {num : Type} `{JSNumber num} {E : Type} `{NoteEngine E}.

(** What the handlers compute from one pointer position:
    [isInDraggableRing] at its SVG coordinates, [getAngleFromPoint], and
    [document.elementFromPoint]. *)
Record Touch := {
  inRing : bool;
  angle : num;
  element : Target
}.

(** A mouse or touch event.  [touches] is [e.touches] ([None] for a mouse
    event), [mouse] the position of a mouse event, [touchDistance] is
    [getTouchDistance(e.touches[0], e.touches[1])]. *)
Record PointerEvent := {
  target : Target;
  touches : option (list Touch);
  mouse : Touch;
  touchDistance : num
}.

(** [e.clientX || (e.touches && e.touches[0].clientX)]: the position the
    single-pointer code works with. *)
Definition primary (e : PointerEvent) : Touch :=
  match touches e with
  | Some (t :: _) => t
  | _ => mouse e
  end.

Record DragState := mkDragState {
  isDragging : bool;
  isRotating : bool;
  isPinching : bool;
  pressedSlices : list Z;             (* the slice elements, by [data-slice], in insertion order *)
  lastAngle : num;
  lastRotationSlice : option Z;
  wasInGripperZone : bool;
  startedFromSlice : bool;
  lastTouchedSlice : option Z;        (* a slice element, by [data-slice] *)
  lastPinchDistance : num
}.

Record Manager := mkManager {
  dragState : DragState;
  sliceCount : Z;                     (* [state.get('sliceCount')] *)
  rotation : num;                     (* [state.get('rotation')] *)
  audio : E;
  visual : list VisualCall            (* calls made by the manager, oldest first *)
}.

Definition initialDragState : DragState :=
  mkDragState false false false [] (num_of_Z 0) None false false None (num_of_Z 0).

Definition with_dragState (f : DragState → DragState) (m : Manager) : Manager :=
  mkManager (f (dragState m)) (sliceCount m) (rotation m) (audio m) (visual m).

Definition with_audio (f : E → E) (m : Manager) : Manager :=
  mkManager (dragState m) (sliceCount m) (rotation m) (f (audio m)) (visual m).

Definition call (c : VisualCall) (m : Manager) : Manager :=
  mkManager (dragState m) (sliceCount m) (rotation m) (audio m) (visual m ++ [c]).

Definition set_sliceCount (n : Z) (m : Manager) : Manager :=
  mkManager (dragState m) n (rotation m) (audio m) (visual m).

Definition set_rotation (r : num) (m : Manager) : Manager :=
  mkManager (dragState m) (sliceCount m) r (audio m) (visual m).

Definition set_isDragging (b : bool) (d : DragState) : DragState :=
  mkDragState b (isRotating d) (isPinching d) (pressedSlices d) (lastAngle d)
    (lastRotationSlice d) (wasInGripperZone d) (startedFromSlice d)
    (lastTouchedSlice d) (lastPinchDistance d).

Definition set_isRotating (b : bool) (d : DragState) : DragState :=
  mkDragState (isDragging d) b (isPinching d) (pressedSlices d) (lastAngle d)
    (lastRotationSlice d) (wasInGripperZone d) (startedFromSlice d)
    (lastTouchedSlice d) (lastPinchDistance d).

Definition set_isPinching (b : bool) (d : DragState) : DragState :=
  mkDragState (isDragging d) (isRotating d) b (pressedSlices d) (lastAngle d)
    (lastRotationSlice d) (wasInGripperZone d) (startedFromSlice d)
    (lastTouchedSlice d) (lastPinchDistance d).

Definition set_pressedSlices (l : list Z) (d : DragState) : DragState :=
  mkDragState (isDragging d) (isRotating d) (isPinching d) l (lastAngle d)
    (lastRotationSlice d) (wasInGripperZone d) (startedFromSlice d)
    (lastTouchedSlice d) (lastPinchDistance d).

Definition set_lastAngle (a : num) (d : DragState) : DragState :=
  mkDragState (isDragging d) (isRotating d) (isPinching d) (pressedSlices d) a
    (lastRotationSlice d) (wasInGripperZone d) (startedFromSlice d)
    (lastTouchedSlice d) (lastPinchDistance d).

Definition set_lastRotationSlice (s : option Z) (d : DragState) : DragState :=
  mkDragState (isDragging d) (isRotating d) (isPinching d) (pressedSlices d)
    (lastAngle d) s (wasInGripperZone d) (startedFromSlice d)
    (lastTouchedSlice d) (lastPinchDistance d).

Definition set_wasInGripperZone (b : bool) (d : DragState) : DragState :=
  mkDragState (isDragging d) (isRotating d) (isPinching d) (pressedSlices d)
    (lastAngle d) (lastRotationSlice d) b (startedFromSlice d)
    (lastTouchedSlice d) (lastPinchDistance d).

Definition set_startedFromSlice (b : bool) (d : DragState) : DragState :=
  mkDragState (isDragging d) (isRotating d) (isPinching d) (pressedSlices d)
    (lastAngle d) (lastRotationSlice d) (wasInGripperZone d) b
    (lastTouchedSlice d) (lastPinchDistance d).

Definition set_lastTouchedSlice (s : option Z) (d : DragState) : DragState :=
  mkDragState (isDragging d) (isRotating d) (isPinching d) (pressedSlices d)
    (lastAngle d) (lastRotationSlice d) (wasInGripperZone d)
    (startedFromSlice d) s (lastPinchDistance d).

Definition set_lastPinchDistance (x : num) (d : DragState) : DragState :=
  mkDragState (isDragging d) (isRotating d) (isPinching d) (pressedSlices d)
    (lastAngle d) (lastRotationSlice d) (wasInGripperZone d)
    (startedFromSlice d) (lastTouchedSlice d) x.

(** [Set.prototype.add] and [Set.prototype.delete] on the pressed set. *)
Definition set_add (x : Z) (l : list Z) : list Z :=
  if bool_decide (x ∈ l) then l else l ++ [x].

Definition set_delete (x : Z) (l : list Z) : list Z :=
  filter (λ y, y ≠ x) l.

(** [renderer.getSliceElement(index)]: the renderer holds one element for
    each index below the slice count it last rendered. *)
Definition getSliceElement (index : Z) (m : Manager) : option Z :=
  if (0 <=? index) && (index <? sliceCount m) then Some index else None.

Definition activateSlice (index : Z) (m : Manager) : Manager :=
  if engine_isLocked index (audio m) then m
  else
    let m := call (PressSlice index) m in
    let m := match getSliceElement index m with
             | Some sliceElement =>
                 with_dragState (λ d, set_pressedSlices (set_add sliceElement (pressedSlices d)) d) m
             | None => m
             end in
    with_audio (engine_playNote index) m.

Definition deactivateSlice (index : Z) (m : Manager) : Manager :=
  let m := call (ReleaseSlice index) m in
  let m := match getSliceElement index m with
           | Some sliceElement =>
               with_dragState (λ d, set_pressedSlices (set_delete sliceElement (pressedSlices d)) d) m
           | None => m
           end in
  with_audio (engine_stopNote index) m.

Definition startPinch (distance : num) (m : Manager) : Manager :=
  with_dragState (λ d, set_lastPinchDistance distance (set_isPinching true d)) m.

(** The four assignments and two calls with which a rotation is entered
    ([startRotation] and the two places in [handleMove] that repeat it). *)
Definition enterRotation (a : num) (m : Manager) : Manager :=
  let m := with_dragState
             (λ d, set_lastAngle a (set_wasInGripperZone true (set_isRotating true d))) m in
  let m := call (Cursor "grabbing") m in
  call ActivateGripper m.

Definition startRotation (a : num) (m : Manager) : Manager :=
  let m := with_dragState
             (λ d, set_lastAngle a
                     (set_startedFromSlice false
                        (set_wasInGripperZone true (set_isRotating true d)))) m in
  let m := call (Cursor "grabbing") m in
  call ActivateGripper m.

Definition startSliceDrag (index : Z) (m : Manager) : Manager :=
  let m := with_dragState (λ d, set_startedFromSlice true (set_isDragging true d)) m in
  activateSlice index m.

Definition two_or_more (e : PointerEvent) : option (Touch * Touch) :=
  match touches e with
  | Some (t1 :: t2 :: _) => Some (t1, t2)
  | _ => None
  end.

Definition handleStart (e : PointerEvent) (m : Manager) : Manager :=
  let lockedTap :=
    match target e with
    | TSlice index => if engine_isLocked index (audio m) then Some index else None
    | _ => None
    end in
  match lockedTap with
  | Some index =>
      let m := with_audio (engine_unlockDrone index) m in
      call (UnlockSlice index) m
  | None =>
      let pinch :=
        match two_or_more e with
        | Some (t1, t2) => inRing t1 && inRing t2
        | None => false
        end in
      if pinch then startPinch (touchDistance e) m
      else
        let p := primary e in
        let isInnerCircle := match target e with TInnerPlate => true | _ => false end in
        if isInnerCircle && inRing p then startRotation (angle p) m
        else
          match target e with
          | TSlice index => startSliceDrag index m
          | _ => m
          end
  end.

(** [Math.max(6, Math.min(72, n))]. *)
Definition clamp_sliceCount (n : Z) : Z := Z.max 6 (Z.min 72 n).

(** [clamp(x, lo, hi)] as the specification uses it. *)
Definition clamp (x lo hi : Z) : Z :=
  if x <? lo then lo else if hi <? x then hi else x.

Definition handlePinch (currentDistance : num) (m : Manager) : Manager :=
  let distanceDelta := num_sub currentDistance (lastPinchDistance (dragState m)) in
  let sliceChange := math_round (num_div distanceDelta (num_of_Z 20)) in
  if sliceChange =? 0 then m
  else
    let currentSliceCount := sliceCount m in
    let newSliceCount := clamp_sliceCount (currentSliceCount - sliceChange) in
    if newSliceCount =? currentSliceCount then m
    else
      let m := set_sliceCount newSliceCount m in
      let m := call Render m in
      with_dragState (set_lastPinchDistance currentDistance) m.

Definition activateSliceAtPosition (a : num) (m : Manager) : Manager :=
  let sliceIndex := Geometry.getSliceIndexAtPoint a (rotation m) (sliceCount m) in
  let m := match lastRotationSlice (dragState m) with
           | Some last => if bool_decide (last ≠ sliceIndex) then deactivateSlice last m else m
           | None => m
           end in
  if bool_decide (Some sliceIndex ≠ lastRotationSlice (dragState m)) then
    let m := activateSlice sliceIndex m in
    with_dragState (set_lastRotationSlice (Some sliceIndex)) m
  else m.

Definition handleRotation (currentAngle : num) (m : Manager) : Manager :=
  let angleDiff := num_sub currentAngle (lastAngle (dragState m)) in
  let angleDiff := if num_gtb angleDiff (num_of_Z 180)
                   then num_sub angleDiff (num_of_Z 360) else angleDiff in
  let angleDiff := if num_ltb angleDiff (num_of_Z (-180))
                   then num_add angleDiff (num_of_Z 360) else angleDiff in
  let newRotation :=
    num_rem (num_add (num_add (rotation m) angleDiff) (num_of_Z 360)) (num_of_Z 360) in
  let m := set_rotation newRotation m in
  let m := with_dragState (set_lastAngle currentAngle) m in
  if startedFromSlice (dragState m) then activateSliceAtPosition currentAngle m else m.

Definition handleSliceDrag (el : Target) (m : Manager) : Manager :=
  let m := match lastTouchedSlice (dragState m) with
           | Some lastIndex =>
               if bool_decide (TSlice lastIndex ≠ el) then
                 let m := deactivateSlice lastIndex m in
                 with_dragState (set_lastTouchedSlice None) m
               else m
           | None => m
           end in
  match el with
  | TSlice index =>
      if engine_isLocked index (audio m) then m
      else if bool_decide (Some index ≠ lastTouchedSlice (dragState m)) then
        let m := activateSlice index m in
        with_dragState (set_lastTouchedSlice (Some index)) m
      else m
  | _ => m
  end.

(** The part of [handleMove] run when a pinch has lost a touch. *)
Definition leavePinch (e : PointerEvent) (m : Manager) : Manager :=
  let m := with_dragState
             (λ d, set_lastPinchDistance (num_of_Z 0) (set_isPinching false d)) m in
  let p := primary e in
  if inRing p then enterRotation (angle p) m
  else
    match element p with
    | TSlice index =>
        let m := with_dragState (λ d, set_startedFromSlice true (set_isDragging true d)) m in
        activateSlice index m
    | _ => with_dragState (set_isDragging true) m
    end.

Definition handleMove (e : PointerEvent) (m : Manager) : Manager :=
  let hasTouches := match touches e with Some _ => true | None => false end in
  let twoTouches := match two_or_more e with Some _ => true | None => false end in
  if isPinching (dragState m) && twoTouches then handlePinch (touchDistance e) m
  else
    let m := if isPinching (dragState m) && hasTouches then leavePinch e m else m in
    if negb (isDragging (dragState m)) && negb (isRotating (dragState m)) then m
    else
      let p := primary e in
      let m :=
        if inRing p && negb (wasInGripperZone (dragState m)) then
          let m := match lastTouchedSlice (dragState m) with
                   | Some lastIndex =>
                       let m := deactivateSlice lastIndex m in
                       with_dragState (set_lastTouchedSlice None) m
                   | None => m
                   end in
          enterRotation (angle p) m
        else m in
      if isRotating (dragState m) then handleRotation (angle p) m
      else if isDragging (dragState m) then handleSliceDrag (element p) m
      else m.

(** The loop of [handleEnd] over the pressed slices. *)
Definition releaseSlice_unless_locked (index : Z) (m : Manager) : Manager :=
  if engine_isLocked index (audio m) then m
  else
    let m := call (ReleaseSlice index) m in
    with_audio (engine_stopNote index) m.

Definition handleEnd (m : Manager) : Manager :=
  let d := dragState m in
  if isDragging d || isRotating d || isPinching d then
    let wasRotating := isRotating d in
    let m := fold_left (λ m index, releaseSlice_unless_locked index m) (pressedSlices d) m in
    let m := match lastRotationSlice d with
             | Some last => releaseSlice_unless_locked last m
             | None => m
             end in
    let m := if wasRotating then call DeactivateGripper m else m in
    let m := with_dragState
               (λ d, set_pressedSlices []
                       (set_lastPinchDistance (num_of_Z 0)
                          (set_lastTouchedSlice None
                             (set_lastRotationSlice None
                                (set_startedFromSlice false
                                   (set_wasInGripperZone false
                                      (set_isPinching false
                                         (set_isRotating false
                                            (set_isDragging false d))))))))) m in
    call (Cursor "grab") m
  else m.

(** [handleKeyboard] on a slice with Enter or Space: the slice is
    activated at once; [keyboardRelease] is the callback it schedules for
    350 ms later. *)
Definition handleKeyboard (index : Z) (m : Manager) : Manager :=
  activateSlice index m.

Definition keyboardRelease (index : Z) (m : Manager) : Manager :=
  deactivateSlice index m.

(** The session has no gesture in progress. *)
Definition idle (m : Manager) : Prop :=
  isDragging (dragState m) = false ∧
  isRotating (dragState m) = false ∧
  isPinching (dragState m) = false.

(** How many of the three gesture flags are set. *)
Definition gestures (m : Manager) : nat :=
  Nat.b2n (isDragging (dragState m)) + Nat.b2n (isRotating (dragState m))
  + Nat.b2n (isPinching (dragState m)).

End WithNumbersAndEngine.

Arguments Touch : clear implicits.
Arguments PointerEvent : clear implicits.
Arguments DragState : clear implicits.
Arguments Manager : clear implicits.

Definition initial {num : Type} `{JSNumber num} {E : Type} (sliceCount0 : Z)
    (rotation0 : num) (engine : E) : Manager num E :=
  mkManager initialDragState sliceCount0 rotation0 engine [].

End Interaction.

(** * Further definitions *)

(** ** More of the note lifecycle *)

(** The synthesizer exists as soon as a note can be sounding or a start
    can be parked: [playNote] creates it before it suspends. *)
Definition synth_ready (w : Audio.World) : Prop :=
  (Audio.initPromise w = true → Audio.synth w = true) ∧
  (Audio.synth w = true ∨
   (Audio.activeNotes w = ∅ ∧ Audio.lockedDrones w = ∅ ∧ Audio.suspended w = ∅)).

(** An index the release handler has dealt with: locked, or silenced for
    good (also when its start is still parked). *)
Definition settled (index : Z) (w : Audio.World) : Prop :=
  Audio.tag index w = Audio.Locked ∨ Audio.cancelled index w.

(** Two managers agree on slice count, rotation and baseline angle. *)
Definition same_configuration {num E : Type} (m m' : Interaction.Manager num E) : Prop :=
  Interaction.sliceCount m' = Interaction.sliceCount m ∧
  Interaction.rotation m' = Interaction.rotation m ∧
  Interaction.lastAngle (Interaction.dragState m') =
    Interaction.lastAngle (Interaction.dragState m).

(** ** StateManager *)

Module State.

Section WithValues.
(** [V]: the values kept under the state keys (numbers and strings, none
    of them NaN, so that [!==] is disequality); [C]: the computed values.
    A callback is identified by a number, as [Set] identifies it by
    reference; the calls made to it are logged in [notified], and it is
    taken not to call back into the manager while it is being notified. *)
Context {V : Type} `{EqDecision V} {C : Type}.

Record StateManager := mkStateManager {
  _state : gmap string V;
  _listeners : gmap string (list nat);     (* key -> Set of callbacks, in insertion order *)
  _computedCache : gmap string C;
  notified : list (nat * V * string)       (* calls [callback(value, key)] made, oldest first *)
}.

(** [new StateManager(initialState)]. *)
Definition create (initialState : gmap string V) : StateManager :=
  mkStateManager initialState ∅ ∅ [].

(** [get(key)]: [None] is [undefined]. *)
Definition get (key : string) (s : StateManager) : option V := _state s !! key.

(** [getAll()]: a copy of the state object. *)
Definition getAll (s : StateManager) : gmap string V := _state s.

(** [_notify(key, value)]. *)
Definition _notify (key : string) (value : V) (s : StateManager) : StateManager :=
  match _listeners s !! key with
  | Some listeners =>
      mkStateManager (_state s) (_listeners s) (_computedCache s)
        (notified s ++ ((λ callback, (callback, value, key)) <$> listeners))
  | None => s
  end.

(** [set(key, value)]. *)
Definition set (key : string) (value : V) (s : StateManager) : StateManager :=
  if decide (_state s !! key = Some value) then s
  else
    let s := mkStateManager (<[key := value]> (_state s)) (_listeners s) ∅ (notified s) in
    _notify key value s.

(** [Set.prototype.add] and [Set.prototype.delete] on a set of callbacks. *)
Definition callbacks_add (callback : nat) (l : list nat) : list nat :=
  if decide (callback ∈ l) then l else l ++ [callback].

Definition callbacks_delete (callback : nat) (l : list nat) : list nat :=
  filter (λ c, c ≠ callback) l.

(** The body of the [forEach] in [subscribe]. *)
Definition subscribe_key (callback : nat) (ls : gmap string (list nat)) (key : string)
    : gmap string (list nat) :=
  let ls := match ls !! key with
            | Some _ => ls
            | None => <[key := []]> ls
            end in
  alter (callbacks_add callback) key ls.

(** [subscribe(keys, callback)], for an array of keys (a single key is
    wrapped into one). *)
Definition subscribe (keys : list string) (callback : nat) (s : StateManager) : StateManager :=
  mkStateManager (_state s) (fold_left (subscribe_key callback) keys (_listeners s))
    (_computedCache s) (notified s).

(** The function [subscribe] returns. *)
Definition unsubscribe (keys : list string) (callback : nat) (s : StateManager) : StateManager :=
  mkStateManager (_state s)
    (fold_left (λ ls key, alter (callbacks_delete callback) key ls) keys (_listeners s))
    (_computedCache s) (notified s).

(** [getComputed(key, computeFn)]: the value returned and the manager
    afterwards. *)
Definition getComputed (key : string) (computeFn : gmap string V → C) (s : StateManager)
    : C * StateManager :=
  match _computedCache s !! key with
  | Some c => (c, s)
  | None =>
      let c := computeFn (_state s) in
      (c, mkStateManager (_state s) (_listeners s) (<[key := c]> (_computedCache s)) (notified s))
  end.

Definition invalidateComputed (s : StateManager) : StateManager :=
  mkStateManager (_state s) (_listeners s) ∅ (notified s).

(** The callbacks registered for a key (none when the key has no set). *)
Definition listeners_of (key : string) (s : StateManager) : list nat :=
  default [] (_listeners s !! key).

(** The calls a client can make on a manager, and the managers they lead
    to from a new one. *)
Inductive Op :=
  | CallSet (key : string) (value : V)
  | CallSubscribe (keys : list string) (callback : nat)
  | CallUnsubscribe (keys : list string) (callback : nat)
  | CallGetComputed (key : string) (computeFn : gmap string V → C)
  | CallInvalidateComputed.

Definition step (op : Op) (s : StateManager) : StateManager :=
  match op with
  | CallSet key value => set key value s
  | CallSubscribe keys callback => subscribe keys callback s
  | CallUnsubscribe keys callback => unsubscribe keys callback s
  | CallGetComputed key computeFn => snd (getComputed key computeFn s)
  | CallInvalidateComputed => invalidateComputed s
  end.

Definition run (ops : list Op) (s : StateManager) : StateManager :=
  fold_left (λ s op, step op s) ops s.

Definition reachable (s : StateManager) : Prop :=
  ∃ initialState ops, s = run ops (create initialState).

End WithValues.

Arguments StateManager : clear implicits.
Arguments Op : clear implicits.

End State.

(** * Properties *)

Import JS.

(** ** The event loop keeps the maps consistent *)

Section AudioInvariant.
Import Audio.

Lemma Inv_initial : Inv initial.
Proof. split; simpl; intros *; rewrite ?lookup_empty; try done; by intros [? ?]. Qed.

Lemma lookup_foldr_delete {A} (ids : list nat) (m : gmap nat A) (t : nat) :
  foldr delete m ids !! t = if bool_decide (t ∈ ids) then None else m !! t.
Proof.
  induction ids as [|id ids IH]; cbn [foldr].
  - case_bool_decide as Hin; [by inversion Hin | done].
  - destruct (decide (t = id)) as [->|Hne].
    + clear IH. rewrite lookup_delete_eq, bool_decide_eq_true_2; [done | left].
    + rewrite lookup_delete_ne, IH by done.
      destruct (decide (t ∈ ids)) as [Hin|Hnin].
      * rewrite (bool_decide_eq_true_2 (t ∈ id :: ids)) by (by right).
        by rewrite (bool_decide_eq_true_2 (t ∈ ids)).
      * rewrite (bool_decide_eq_false_2 (t ∈ id :: ids))
          by (intros [?|?]%elem_of_cons; done).
        by rewrite (bool_decide_eq_false_2 (t ∈ ids)).
Qed.

Ltac inv_goal j :=
  let i := fresh "i" in
  intros i; intros;
  repeat match goal with H : is_Some (_ !! _) |- _ => destruct H end;
  destruct (decide (i = j)) as [->|?]; simplify_map_eq;
  eauto; try done; try congruence;
  try (match goal with
       | H : ∀ i, is_Some (?m !! i) → _, E : ?m !! ?x = Some _ |- _ =>
           (rewrite H in * by eauto); done
       end).

Ltac inv_split j := split; simpl; eauto; try (inv_goal j; fail).

Lemma Inv_playNote index cb w : Inv w → Inv (playNote index cb w).
Proof.
  intros [H1 H2 H3 H4 H5 H6 H7]. unfold playNote.
  destruct (lockedDrones w !! index) eqn:Hl; [by split|].
  destruct (activeNotes w !! index) eqn:Ha; [by split|].
  unfold init, _doInit; simpl.
  destruct (initPromise w); simpl; [|destruct (synth w); simpl];
    inv_split index.
Qed.

(** Clearing the timeout registered for [index] keeps the timer table in
    step with [lockTimeouts]. *)
Lemma timers_after_clear w index id :
  (∀ t k, timers w !! t = Some k → lockTimeouts w !! k_index k = Some t) →
  lockTimeouts w !! index = Some id →
  ∀ t k, delete id (timers w) !! t = Some k →
         delete index (lockTimeouts w) !! k_index k = Some t.
Proof.
  intros H5 Ht t k. destruct (decide (t = id)) as [->|?]; simplify_map_eq; [done|].
  intros Hk. specialize (H5 _ _ Hk).
  destruct (decide (k_index k = index)) as [Heq|?]; simplify_map_eq; done.
Qed.

Lemma Inv_lockDrone index w : Inv w → Inv (lockDrone index w).
Proof.
  intros [H1 H2 H3 H4 H5 H6 H7]. unfold lockDrone.
  destruct (activeNotes w !! index) as [n|] eqn:Ha; [|by split]. simpl.
  destruct (lockTimeouts w !! index) as [id|] eqn:Ht; simpl.
  - inv_split index. by apply timers_after_clear.
  - inv_split index.
Qed.

Lemma Inv_playNote_resumed k w : Inv w → Inv (playNote_resumed k w).
Proof.
  intros [H1 H2 H3 H4 H5 H6 H7]. unfold playNote_resumed.
  set (index := k_index k).
  destruct (pendingNotes w !! index) as [p|] eqn:Hp; simpl.
  - destruct (shouldCancel p); simpl.
    + inv_split index.
    + assert (Hna : activeNotes w !! index = None) by (apply H1; eauto).
      assert (Hnl : lockedDrones w !! index = None) by (apply H2; eauto).
      assert (Hnt : lockTimeouts w !! index = None).
      { destruct (lockTimeouts w !! index) eqn:Ht; [|done].
        destruct (H3 index) as [? ?]; [eauto | congruence]. }
      inv_split index.
      intros t k'. destruct (decide (t = nextTimer w)) as [->|?]; simplify_map_eq.
      { intros [= <-]. by simplify_map_eq. }
      intros Hk. specialize (H5 _ _ Hk).
      destruct (decide (k_index k' = index)) as [Heq|?]; simplify_map_eq; [congruence | done].
  - inv_split index.
Qed.

Lemma Inv_with_autoLockLog l w : Inv w → Inv (with_autoLockLog l w).
Proof. intros []; by split. Qed.

Lemma Inv_autoLock_callback k w : Inv w → Inv (autoLock_callback k w).
Proof.
  intros Hw. unfold autoLock_callback.
  destruct (k_onAutoLock k); [apply Inv_with_autoLockLog|]; by apply Inv_lockDrone.
Qed.

Lemma Inv_stopNote index force w : Inv w → Inv (stopNote index force w).
Proof.
  intros [H1 H2 H3 H4 H5 H6 H7]. unfold stopNote.
  destruct (bool_decide _ && negb force); [by split|].
  destruct (activeNotes w !! index) as [n|] eqn:Ha.
  - destruct (synth w); simpl;
      (destruct (lockTimeouts w !! index) as [id|] eqn:Ht; simpl;
       [ inv_split index; by apply timers_after_clear
       | inv_split index ]).
  - destruct (pendingNotes w !! index) as [p|] eqn:Hp; [|by split].
    inv_split index.
Qed.

Lemma Inv_unlockDrone index w : Inv w → Inv (unlockDrone index w).
Proof.
  intros [H1 H2 H3 H4 H5 H6 H7]. unfold unlockDrone.
  destruct (lockedDrones w !! index) as [n|] eqn:Hl; [|by split].
  assert (Hnt : lockTimeouts w !! index = None) by (apply H4; eauto).
  simpl. destruct (synth w); simpl; inv_split index.
Qed.

Lemma Inv_stopAllNotes w : Inv w → Inv (stopAllNotes w).
Proof.
  intros [H1 H2 H3 H4 H5 H6 H7]. unfold stopAllNotes.
  destruct (synth w) eqn:Hs; simpl; rewrite ?Hs; simpl; rewrite ?Hs; simpl.
  all: split; simpl; intros *; rewrite ?lookup_empty; try done; try (by intros [? ?]).
  all: rewrite lookup_foldr_delete; case_bool_decide as Hin; [done|].
  all: intros Hk; exfalso; apply Hin.
  all: apply list_elem_of_fmap; exists (k_index k, t); split; [done|].
  all: apply elem_of_map_to_list; eauto.
Qed.

Lemma Inv_resume call w : Inv w → Inv (resume call w).
Proof.
  intros Hw. unfold resume. destruct (suspended w !! call); [|done].
  apply Inv_playNote_resumed. destruct Hw; by split.
Qed.

Lemma Inv_fire id w : Inv w → Inv (fire id w).
Proof.
  intros Hw. unfold fire. destruct (timers w !! id) as [k|] eqn:Hk; [|done].
  apply Inv_autoLock_callback. destruct Hw as [H1 H2 H3 H4 H5 H6 H7].
  split; simpl; eauto.
  intros t k' Hk'. apply H5. rewrite lookup_delete_Some in Hk'. tauto.
Qed.

Lemma Inv_step o w : Inv w → Inv (step o w).
Proof.
  destruct o; simpl;
    auto using Inv_playNote, Inv_stopNote, Inv_lockDrone, Inv_unlockDrone,
               Inv_stopAllNotes, Inv_resume, Inv_fire.
Qed.

Lemma Inv_run ops w : Inv w → Inv (run ops w).
Proof.
  revert w. induction ops as [|o ops IH]; intros w Hw; [done|].
  apply IH, Inv_step, Hw.
Qed.

Lemma reachable_Inv w : reachable w → Inv w.
Proof. intros [ops ->]. apply Inv_run, Inv_initial. Qed.

Lemma run_app ops1 ops2 w : run (ops1 ++ ops2) w = run ops2 (run ops1 w).
Proof. unfold run. apply fold_left_app. Qed.

Lemma reachable_step o w : reachable w → reachable (step o w).
Proof. intros [ops ->]. exists (ops ++ [o]). by rewrite run_app. Qed.

Lemma reachable_run ops w : reachable w → reachable (run ops w).
Proof. intros [ops0 ->]. exists (ops0 ++ ops). by rewrite run_app. Qed.

End AudioInvariant.

(** ** Cancellation of a parked start *)

Section Cancellation.
Import Audio.

Ltac cancel_goal index j :=
  destruct (decide (j = index)) as [->|?]; simplify_map_eq; eauto; try done; try congruence.

Lemma cancelled_lockDrone index j w : cancelled index w → cancelled index (lockDrone j w).
Proof.
  intros (Ha & Hl & Hp). unfold lockDrone, cancelled.
  destruct (activeNotes w !! j) as [n|] eqn:Haj; [|done]. simpl.
  assert (j ≠ index) by congruence.
  destruct (lockTimeouts w !! j); simpl; rewrite lookup_insert_ne by done; auto.
Qed.

Lemma cancelled_playNote_resumed index k w :
  cancelled index w → cancelled index (playNote_resumed k w).
Proof.
  intros (Ha & Hl & Hp). unfold playNote_resumed, cancelled.
  destruct (pendingNotes w !! k_index k) as [p|] eqn:Hk; simpl.
  - destruct (shouldCancel p) eqn:Hc; simpl.
    + repeat split; try done. intros p'. cancel_goal index (k_index k).
    + assert (k_index k ≠ index).
      { intros Heq. rewrite Heq in Hk. apply Hp in Hk. congruence. }
      rewrite !lookup_insert_ne, lookup_delete_ne by done. auto.
  - repeat split; try done. intros p'. cancel_goal index (k_index k).
Qed.

Lemma stopAllNotes_maps w :
  pendingNotes (stopAllNotes w) = ∅ ∧
  activeNotes (stopAllNotes w) = ∅ ∧
  lockedDrones (stopAllNotes w) = ∅ ∧
  lockTimeouts (stopAllNotes w) = ∅ ∧
  suspended (stopAllNotes w) = suspended w ∧
  timers (stopAllNotes w) = foldr delete (timers w) (map_to_list (lockTimeouts w)).*2.
Proof.
  unfold stopAllNotes.
  destruct (synth w) eqn:Hs; simpl; rewrite ?Hs; simpl; rewrite ?Hs; simpl; done.
Qed.

Lemma cancelled_step index o w :
  restarts index o = false → cancelled index w → cancelled index (step o w).
Proof.
  intros Ho Hc. destruct o as [j cb|j force|j|j| |call|id]; simpl in *.
  - apply bool_decide_eq_false in Ho. destruct Hc as (Ha & Hl & Hp).
    unfold playNote. destruct (lockedDrones w !! j); [done|].
    destruct (activeNotes w !! j); [done|].
    unfold cancelled, init, _doInit; simpl.
    destruct (initPromise w); simpl; [|destruct (synth w); simpl];
      rewrite lookup_insert_ne by done; auto.
  - destruct Hc as (Ha & Hl & Hp). unfold stopNote.
    destruct (bool_decide _ && negb force); [done|].
    destruct (activeNotes w !! j) as [n|] eqn:Haj.
    + assert (j ≠ index) by congruence.
      destruct (synth w); simpl;
        (destruct (lockTimeouts w !! j); unfold cancelled; simpl;
         rewrite lookup_delete_ne by done; auto).
    + destruct (pendingNotes w !! j) as [p|] eqn:Hpj; [|done].
      unfold cancelled; simpl. repeat split; try done.
      intros p'. cancel_goal index j. by intros [= <-].
  - by apply cancelled_lockDrone.
  - destruct Hc as (Ha & Hl & Hp). unfold unlockDrone.
    destruct (lockedDrones w !! j) as [n|] eqn:Hlj; [|done].
    assert (j ≠ index) by congruence.
    unfold cancelled; simpl. destruct (synth w); simpl;
      rewrite !lookup_delete_ne by done; auto.
  - unfold cancelled.
    destruct (stopAllNotes_maps w) as (-> & -> & -> & _).
    rewrite !lookup_empty. by repeat split.
  - unfold resume. destruct (suspended w !! call) as [k|]; [|done].
    apply cancelled_playNote_resumed. destruct Hc as (? & ? & ?). done.
  - unfold fire. destruct (timers w !! id) as [k|]; [|done].
    unfold autoLock_callback.
    assert (cancelled index (lockDrone (k_index k)
              (with_timers (delete id (timers w)) (nextTimer w) w))) as Hc'.
    { apply cancelled_lockDrone. destruct Hc as (? & ? & ?). done. }
    destruct (k_onAutoLock k); [|done]. destruct Hc' as (? & ? & ?). done.
Qed.

Lemma cancelled_run index ops w :
  Forall (λ o, restarts index o = false) ops →
  cancelled index w → cancelled index (run ops w).
Proof.
  intros Hops. revert w. induction Hops as [|o ops Ho _ IH]; intros w Hc; [done|].
  apply IH, cancelled_step; done.
Qed.

(** A parked start whose index is cancelled resumes without an attack
    and leaves the index Idle. *)
Lemma resume_cancelled index call k w :
  cancelled index w → suspended w !! call = Some k → k_index k = index →
  synthLog (resume call w) = synthLog w ∧
  activeNotes (resume call w) = activeNotes w ∧
  lockedDrones (resume call w) = lockedDrones w ∧
  timers (resume call w) = timers w ∧
  tag index (resume call w) = Idle.
Proof.
  intros (Ha & Hl & Hp) Hk <-. unfold resume. rewrite Hk.
  unfold playNote_resumed; simpl.
  destruct (pendingNotes w !! k_index k) as [p|] eqn:Hpk; simpl.
  - rewrite (Hp p eq_refl). simpl. unfold tag; simpl.
    by rewrite Hl, Ha, lookup_delete_eq.
  - unfold tag; simpl. by rewrite Hl, Ha, lookup_delete_eq.
Qed.

Lemma stopNote_pending_cancelled index force w :
  tag index w = Pending → cancelled index (stopNote index force w).
Proof.
  unfold tag. destruct (lockedDrones w !! index) eqn:Hl; [done|].
  destruct (activeNotes w !! index) eqn:Ha; [done|].
  destruct (pendingNotes w !! index) as [p|] eqn:Hp; [|done]. intros _.
  unfold stopNote. rewrite Hl, Ha, Hp. simpl.
  unfold cancelled; simpl. repeat split; try done.
  intros p'. rewrite lookup_insert_eq. by intros [= <-].
Qed.

End Cancellation.

(** ** The note lifecycle of audio.js *)

Section NoteLifecycle.
Import Audio.

Lemma world_eta w :
  mkWorld (synth w) (initPromise w) (pendingNotes w) (activeNotes w)
    (lockedDrones w) (lockTimeouts w) (suspended w) (nextCall w) (timers w)
    (nextTimer w) (synthLog w) (autoLockLog w) = w.
Proof. by destruct w. Qed.

Lemma tag_Idle index w :
  tag index w = Idle ↔
  lockedDrones w !! index = None ∧ activeNotes w !! index = None ∧
  pendingNotes w !! index = None.
Proof.
  unfold tag. destruct (lockedDrones w !! index), (activeNotes w !! index),
    (pendingNotes w !! index); split; (done || by intros (? & ? & ?)).
Qed.

(** C1 (as the code has it): a stop issued while the index is Pending
    flags the pending record; from then on, and until a new start for that
    index replaces the record, the index never becomes Active, and every
    parked start for it resumes without an attack and leaves it Idle. *)
Theorem stop_while_pending_cancels_start index force ops w :
  tag index w = Pending →
  Forall (λ o, restarts index o = false) ops →
  let w' := run ops (stopNote index force w) in
  tag index w' ≠ Active ∧
  ∀ call k, suspended w' !! call = Some k → k_index k = index →
    synthLog (resume call w') = synthLog w' ∧
    activeNotes (resume call w') = activeNotes w' ∧
    tag index (resume call w') = Idle.
Proof.
  intros Hp Hops w'.
  assert (Hc : cancelled index w').
  { apply cancelled_run; [done|]. by apply stopNote_pending_cancelled. }
  split.
  - destruct Hc as (Ha & Hl & _). unfold tag. rewrite Hl, Ha.
    by destruct (pendingNotes w' !! index).
  - intros call k Hk Hi.
    destruct (resume_cancelled index call k w' Hc Hk Hi) as (? & ? & ? & ? & ?).
    done.
Qed.

Lemma stop_while_pending_cancels_start_witness :
  let w' := run [Play 1 true] (stopNote 0 false (run [Play 0 true] initial)) in
  tag 0 w' ≠ Active ∧
  ∀ call k, suspended w' !! call = Some k → k_index k = 0 →
    synthLog (resume call w') = synthLog w' ∧
    activeNotes (resume call w') = activeNotes w' ∧
    tag 0 (resume call w') = Idle.
Proof.
  apply (stop_while_pending_cancels_start 0 false [Play 1 true] (run [Play 0 true] initial)).
  - vm_compute. reflexivity.
  - repeat constructor.
Defined.

(** C1, as stated, fails: start, stop, start again, and the first start's
    continuation (call 0, in flight when the stop was issued) triggers the
    attack and makes the index Active. *)
Lemma restart_rearms_cancelled_start :
  let w0 := run [Play 0 true] initial in
  let w1 := run [Stop 0 false; Play 0 true] w0 in
  tag 0 w0 = Pending ∧
  suspended w1 !! 0%nat = Some {| k_index := 0; k_onAutoLock := true |} ∧
  synthLog (resume 0 w1) = [TriggerAttack "C3"] ∧
  tag 0 (resume 0 w1) = Active.
Proof. vm_compute. repeat split. Qed.

(** What [playNote] does on an index that is neither locked nor active. *)
Lemma playNote_start index cb w :
  lockedDrones w !! index = None → activeNotes w !! index = None →
  let w' := playNote index cb w in
  pendingNotes w'
    = <[index := {| shouldCancel := false; note := getNote index |}]> (pendingNotes w) ∧
  activeNotes w' = activeNotes w ∧ lockedDrones w' = lockedDrones w ∧
  lockTimeouts w' = lockTimeouts w ∧
  suspended w' = <[nextCall w := {| k_index := index; k_onAutoLock := cb |}]> (suspended w) ∧
  nextCall w' = S (nextCall w) ∧
  timers w' = timers w ∧ nextTimer w' = nextTimer w ∧ synthLog w' = synthLog w.
Proof.
  intros Hl Ha. unfold playNote. rewrite Hl, Ha. unfold init, _doInit. cbn.
  destruct (initPromise w); cbn; [|destruct (synth w); cbn]; done.
Qed.

(** A parked start that finds its pending record unflagged goes through. *)
Lemma resume_goes_through call k p w :
  suspended w !! call = Some k →
  pendingNotes w !! k_index k = Some p → shouldCancel p = false →
  let w' := resume call w in
  synthLog w' = synthLog w ++ [TriggerAttack (getNote (k_index k))] ∧
  pendingNotes w' = delete (k_index k) (pendingNotes w) ∧
  activeNotes w' = <[k_index k := getNote (k_index k)]> (activeNotes w) ∧
  lockedDrones w' = lockedDrones w ∧
  lockTimeouts w' = <[k_index k := nextTimer w]> (lockTimeouts w) ∧
  timers w' = <[nextTimer w := k]> (timers w) ∧
  suspended w' = delete call (suspended w).
Proof.
  intros Hk Hp Hc. unfold resume. rewrite Hk. unfold playNote_resumed. cbn.
  rewrite Hp, Hc. cbn. done.
Qed.

(** A parked start that finds no pending record changes nothing but the
    table it was parked in. *)
Lemma resume_without_pending call k w :
  suspended w !! call = Some k → pendingNotes w !! k_index k = None →
  let w' := resume call w in
  synthLog w' = synthLog w ∧ pendingNotes w' = pendingNotes w ∧
  activeNotes w' = activeNotes w ∧ lockedDrones w' = lockedDrones w ∧
  lockTimeouts w' = lockTimeouts w ∧ timers w' = timers w ∧
  suspended w' = delete call (suspended w).
Proof.
  intros Hk Hp. unfold resume. rewrite Hk. unfold playNote_resumed. cbn.
  rewrite Hp. cbn. rewrite delete_id by done. done.
Qed.

Lemma tag_Active index n w :
  lockedDrones w !! index = None → activeNotes w !! index = Some n →
  tag index w = Active.
Proof. intros Hl Ha. unfold tag. by rewrite Hl, Ha. Qed.

(** Two parked starts for one index, resumed one after the other: the
    first goes through, the second finds nothing to do. *)
Lemma resume_twice index c c' cb cb' p w :
  c ≠ c' →
  suspended w !! c = Some {| k_index := index; k_onAutoLock := cb |} →
  suspended w !! c' = Some {| k_index := index; k_onAutoLock := cb' |} →
  pendingNotes w !! index = Some p → shouldCancel p = false →
  lockedDrones w !! index = None →
  let one := synthLog w ++ [TriggerAttack (getNote index)] in
  synthLog (resume c w) = one ∧ tag index (resume c w) = Active ∧
  synthLog (resume c' (resume c w)) = one ∧
  activeNotes (resume c' (resume c w)) = activeNotes (resume c w) ∧
  timers (resume c' (resume c w)) = timers (resume c w) ∧
  tag index (resume c' (resume c w)) = Active.
Proof.
  intros Hne Hc Hc' Hp Hf Hl one.
  destruct (resume_goes_through c _ p w Hc Hp Hf)
    as (Hlog & Hpend & Hact & Hlock & _ & _ & Hsus). cbn in *.
  assert (suspended (resume c w) !! c' = Some {| k_index := index; k_onAutoLock := cb' |}) as Hc2.
  { by rewrite Hsus, lookup_delete_ne. }
  assert (pendingNotes (resume c w) !! index = None) as Hp2.
  { by rewrite Hpend, lookup_delete_eq. }
  destruct (resume_without_pending c' _ (resume c w) Hc2 Hp2)
    as (Hlog2 & _ & Hact2 & Hlock2 & _ & Htm2 & _).
  assert (tag index (resume c w) = Active) as Ht.
  { apply (tag_Active index (getNote index)); [by rewrite Hlock|].
    by rewrite Hact, lookup_insert_eq. }
  repeat split; try done.
  - by rewrite Hlog2.
  - apply (tag_Active index (getNote index)).
    + by rewrite Hlock2, Hlock.
    + by rewrite Hact2, Hact, lookup_insert_eq.
Qed.

(** C2: from Idle, two starts issued before readiness resolves give one
    attack and one transition to Active, in whichever order the two
    continuations resume; the later one changes neither the synthesizer
    log, nor the active notes, nor the timers. *)
Theorem two_starts_one_attack index cb1 cb2 w :
  tag index w = Idle →
  let w2 := playNote index cb2 (playNote index cb1 w) in
  let c1 := nextCall w in
  let c2 := S (nextCall w) in
  let one := synthLog w ++ [TriggerAttack (getNote index)] in
  tag index w2 = Pending ∧
  (synthLog (resume c1 w2) = one ∧ tag index (resume c1 w2) = Active ∧
   synthLog (resume c2 (resume c1 w2)) = one ∧
   activeNotes (resume c2 (resume c1 w2)) = activeNotes (resume c1 w2) ∧
   timers (resume c2 (resume c1 w2)) = timers (resume c1 w2) ∧
   tag index (resume c2 (resume c1 w2)) = Active) ∧
  (synthLog (resume c2 w2) = one ∧ tag index (resume c2 w2) = Active ∧
   synthLog (resume c1 (resume c2 w2)) = one ∧
   activeNotes (resume c1 (resume c2 w2)) = activeNotes (resume c2 w2) ∧
   timers (resume c1 (resume c2 w2)) = timers (resume c2 w2) ∧
   tag index (resume c1 (resume c2 w2)) = Active).
Proof.
  intros (Hl & Ha & Hp)%tag_Idle w2 c1 c2 one.
  destruct (playNote_start index cb1 w Hl Ha)
    as (Hp1 & Ha1 & Hl1 & _ & Hs1 & Hn1 & _ & _ & Hlog1). cbn in *.
  set (w1 := playNote index cb1 w) in *.
  assert (lockedDrones w1 !! index = None) as Hl1' by (by rewrite Hl1).
  assert (activeNotes w1 !! index = None) as Ha1' by (by rewrite Ha1).
  destruct (playNote_start index cb2 w1 Hl1' Ha1')
    as (Hp2 & Ha2 & Hl2 & _ & Hs2 & _ & _ & _ & Hlog2). cbn in *.
  fold w2 in Hp2, Ha2, Hl2, Hs2, Hlog2.
  assert (c1 ≠ c2) as Hne by (unfold c1, c2; lia).
  assert (suspended w2 !! c1 = Some {| k_index := index; k_onAutoLock := cb1 |}) as Hc1.
  { rewrite Hs2, Hn1, Hs1. fold c1 c2. by rewrite lookup_insert_ne, lookup_insert_eq. }
  assert (suspended w2 !! c2 = Some {| k_index := index; k_onAutoLock := cb2 |}) as Hc2.
  { rewrite Hs2, Hn1. fold c2. by rewrite lookup_insert_eq. }
  assert (pendingNotes w2 !! index
          = Some {| shouldCancel := false; note := getNote index |}) as Hpend.
  { by rewrite Hp2, lookup_insert_eq. }
  assert (lockedDrones w2 !! index = None) as Hlock by (by rewrite Hl2, Hl1).
  assert (one = synthLog w2 ++ [TriggerAttack (getNote index)]) as ->.
  { unfold one. by rewrite Hlog2, Hlog1. }
  split; [|split].
  - unfold tag. by rewrite Hlock, Ha2, Ha1, Ha, Hpend.
  - by eapply (resume_twice index c1 c2 cb1 cb2).
  - by eapply (resume_twice index c2 c1 cb2 cb1).
Qed.

Lemma two_starts_one_attack_witness :
  let w2 := playNote 3 true (playNote 3 true initial) in
  tag 3 w2 = Pending ∧
  synthLog (resume 1 (resume 0 w2)) = [TriggerAttack "F3"] ∧
  synthLog (resume 0 (resume 1 w2)) = [TriggerAttack "F3"].
Proof.
  destruct (two_starts_one_attack 3 true true initial) as (H0 & H1 & H2).
  - vm_compute. reflexivity.
  - split; [exact H0|]. split; [apply H1 | apply H2].
Defined.

(** C3, as stated, fails: [lockDrone] leaves the index in [activeNotes],
    so a locked index is in both maps. *)
Lemma locked_index_stays_in_activeNotes :
  let w := run [Play 0 true; Resume 0; Lock 0] initial in
  activeNotes w !! 0 = Some "C3" ∧ lockedDrones w !! 0 = Some "C3" ∧
  ¬ dom (activeNotes w) ## dom (lockedDrones w).
Proof.
  split; [vm_compute; reflexivity|]. split; [vm_compute; reflexivity|].
  intros Hd. apply (Hd 0); apply elem_of_dom; vm_compute; eauto.
Qed.

(** C3 (as the code has it): in every reachable state [pendingNotes] is
    disjoint from [activeNotes] and from [lockedDrones], and every index
    has the one tag that the methods' tests give it, Locked taking
    precedence over Active. *)
Theorem pending_disjoint_from_active_and_locked w :
  reachable w →
  dom (pendingNotes w) ## dom (activeNotes w) ∧
  dom (pendingNotes w) ## dom (lockedDrones w) ∧
  ∀ index,
    (tag index w = Locked ↔ index ∈ dom (lockedDrones w)) ∧
    (tag index w = Active ↔ index ∈ dom (activeNotes w) ∖ dom (lockedDrones w)) ∧
    (tag index w = Pending ↔ index ∈ dom (pendingNotes w)) ∧
    (tag index w = Idle ↔
       index ∉ dom (pendingNotes w) ∪ dom (activeNotes w) ∪ dom (lockedDrones w)).
Proof.
  intros [H1 H2 _ _ _ _ _]%reachable_Inv.
  assert (D1 : dom (pendingNotes w) ## dom (activeNotes w)).
  { intros i Hp%elem_of_dom Ha%elem_of_dom. rewrite (H1 i Hp) in Ha. by destruct Ha. }
  assert (D2 : dom (pendingNotes w) ## dom (lockedDrones w)).
  { intros i Hp%elem_of_dom Hl%elem_of_dom. rewrite (H2 i Hp) in Hl. by destruct Hl. }
  split; [done|]. split; [done|]. intros index.
  rewrite elem_of_difference, !not_elem_of_union, !elem_of_dom.
  assert (∀ {A} (x : A), is_Some (Some x)) as HS by (intros; by eexists).
  assert (∀ A, ¬ is_Some (@None A)) as HN by (intros A [? ?]; done).
  unfold tag.
  destruct (lockedDrones w !! index) eqn:Hl, (activeNotes w !! index) eqn:Ha,
    (pendingNotes w !! index) eqn:Hp.
  all: try (exfalso; specialize (H1 index); rewrite Hp, Ha in H1;
            specialize (H1 (HS _ _)); congruence).
  all: try (exfalso; specialize (H2 index); rewrite Hp, Hl in H2;
            specialize (H2 (HS _ _)); congruence).
  all: repeat split; try done; try (intros; apply HS); try (intros ?; exfalso; by eapply HN).
  all: try (intros []; exfalso; by eapply HN).
  all: try (intros [_ Hx]; exfalso; apply Hx, HS).
  all: try (intros [[Hx _] _]; exfalso; apply Hx, HS).
  all: try (intros [[_ Hx] _]; exfalso; apply Hx, HS).
  all: try (intros [_ Hx]; exfalso; apply Hx, HS).
  all: try (intros _; repeat split; apply HN).
Qed.

Lemma pending_disjoint_from_active_and_locked_witness :
  let w := run [Play 0 true; Play 1 true; Resume 0; Lock 0] initial in
  dom (pendingNotes w) ## dom (activeNotes w) ∧
  dom (pendingNotes w) ## dom (lockedDrones w).
Proof.
  intros w.
  destruct (pending_disjoint_from_active_and_locked w) as (H1 & H2 & _).
  - by exists [Play 0 true; Play 1 true; Resume 0%nat; Lock 0].
  - by split.
Defined.

(** C5, as stated, fails for a continuation whose index is started again
    after [stopAllNotes]: the continuation that was outstanding at the
    time of the call (call 0) then triggers the attack. *)
Lemma start_after_stopAll_revives_old_continuation :
  let w0 := run [Play 0 true] initial in
  let w1 := run [StopAll; Play 0 true] w0 in
  suspended w0 !! 0%nat = Some {| k_index := 0; k_onAutoLock := true |} ∧
  synthLog (resume 0 w1) = [TriggerAttack "C3"] ∧
  tag 0 (resume 0 w1) = Active.
Proof. vm_compute. repeat split. Qed.

(** C5 (as the code has it): from any reachable state [stopAllNotes]
    empties the pending, active, locked and timeout maps and clears every
    scheduled auto-lock timer, so that no timer can fire afterwards; and a
    start continuation still parked resumes without an attack and without
    touching the active or locked notes, as long as no new start for its
    index has been issued in between. *)
Theorem stopAllNotes_silences_everything w :
  reachable w →
  let w' := stopAllNotes w in
  pendingNotes w' = ∅ ∧ activeNotes w' = ∅ ∧ lockedDrones w' = ∅ ∧
  lockTimeouts w' = ∅ ∧ timers w' = ∅ ∧
  (∀ index, tag index w' = Idle) ∧
  (∀ id, fire id w' = w') ∧
  ∀ index ops call k,
    Forall (λ o, restarts index o = false) ops →
    suspended (run ops w') !! call = Some k → k_index k = index →
    synthLog (resume call (run ops w')) = synthLog (run ops w') ∧
    activeNotes (resume call (run ops w')) = activeNotes (run ops w') ∧
    lockedDrones (resume call (run ops w')) = lockedDrones (run ops w') ∧
    tag index (resume call (run ops w')) = Idle.
Proof.
  intros Hr w'. pose proof (reachable_Inv w Hr) as [_ _ _ _ H5 _ _].
  destruct (stopAllNotes_maps w) as (Hp & Ha & Hl & Ht & Hs & Htm).
  assert (Hempty : timers w' = ∅).
  { apply map_eq. intros t. unfold w'. rewrite Htm, lookup_foldr_delete, lookup_empty.
    case_bool_decide as Hin; [done|].
    destruct (timers w !! t) as [k|] eqn:Hk; [|done].
    exfalso. apply Hin. apply list_elem_of_fmap.
    exists (k_index k, t). split; [done|]. apply elem_of_map_to_list. eauto. }
  repeat split; try done.
  - intros index. apply tag_Idle. unfold w'. by rewrite Hp, Ha, Hl, !lookup_empty.
  - intros id. unfold fire. by rewrite Hempty, lookup_empty.
  - eapply resume_cancelled; [|done..].
    apply cancelled_run; [done|]. unfold cancelled, w'.
    rewrite Hp, Ha, Hl, !lookup_empty. by repeat split.
  - eapply resume_cancelled; [|done..].
    apply cancelled_run; [done|]. unfold cancelled, w'.
    rewrite Hp, Ha, Hl, !lookup_empty. by repeat split.
  - eapply resume_cancelled; [|done..].
    apply cancelled_run; [done|]. unfold cancelled, w'.
    rewrite Hp, Ha, Hl, !lookup_empty. by repeat split.
  - eapply resume_cancelled; [|done..].
    apply cancelled_run; [done|]. unfold cancelled, w'.
    rewrite Hp, Ha, Hl, !lookup_empty. by repeat split.
Qed.

Lemma stopAllNotes_silences_everything_witness :
  let w' := stopAllNotes (run [Play 0 true; Play 1 true; Resume 0; Fire 0; Play 2 true; Resume 2] initial) in
  pendingNotes w' = ∅ ∧ activeNotes w' = ∅ ∧ lockedDrones w' = ∅ ∧
  lockTimeouts w' = ∅ ∧ timers w' = ∅.
Proof.
  intros w'.
  destruct (stopAllNotes_silences_everything
              (run [Play 0 true; Play 1 true; Resume 0%nat; Fire 0%nat; Play 2 true; Resume 2%nat] initial))
    as (H1 & H2 & H3 & H4 & H5 & _).
  - eexists. reflexivity.
  - by repeat split.
Defined.

(** C6: on a locked index, in every reachable state, [playNote],
    [stopNote] without force and [lockDrone] leave the whole state as it
    is: no map, timer, or synthesizer call changes, and the index stays
    Locked. *)
Theorem locked_index_ignores_start_stop_lock index cb w :
  reachable w →
  tag index w = Locked →
  playNote index cb w = w ∧
  stopNote index false w = w ∧
  lockDrone index w = w.
Proof.
  intros [_ _ _ H4 _ H6 H7]%reachable_Inv Ht.
  assert (∃ n, lockedDrones w !! index = Some n) as [n Hl].
  { unfold tag in Ht. destruct (lockedDrones w !! index); [eauto | ].
    destruct (activeNotes w !! index); [done|]. by destruct (pendingNotes w !! index). }
  repeat split.
  - unfold playNote. by rewrite Hl.
  - unfold stopNote. rewrite Hl. simpl. done.
  - unfold lockDrone. destruct (activeNotes w !! index) as [n'|] eqn:Ha; [|done].
    simpl. rewrite (H4 index) by eauto.
    rewrite (H6 _ _ Ha), <- (H7 _ _ Hl), insert_id by done.
    unfold with_lockedDrones. apply world_eta.
Qed.

Lemma locked_index_ignores_start_stop_lock_witness :
  let w := run [Play 0 true; Resume 0; Fire 0] initial in
  tag 0 w = Locked ∧
  playNote 0 true w = w ∧ stopNote 0 false w = w ∧ lockDrone 0 w = w.
Proof.
  intros w. split; [vm_compute; reflexivity|].
  apply (locked_index_ignores_start_stop_lock 0 true w).
  - eexists. reflexivity.
  - vm_compute. reflexivity.
Defined.

End NoteLifecycle.

(** ** Hit-testing *)

Import Interaction.

Section HitTest.
Import Geometry.
Local Open Scope Q_scope.

Lemma Qfloor_unique (x : Q) (z : Z) :
  inject_Z z <= x → x < inject_Z (z + 1) → Qfloor x = z.
Proof.
  intros Hle Hlt.
  pose proof (Qfloor_le x) as H1. pose proof (Qlt_floor x) as H2.
  assert (inject_Z z < inject_Z (Qfloor x + 1)) as H3 by (eapply Qle_lt_trans; eauto).
  assert (inject_Z (Qfloor x) < inject_Z (z + 1)) as H4 by (eapply Qle_lt_trans; eauto).
  rewrite <- Zlt_Qlt in H3, H4. lia.
Qed.

Lemma Qmod360_range (x : Q) : 0 <= Qmod360 x ∧ Qmod360 x < 360.
Proof.
  unfold Qmod360.
  pose proof (Qfloor_le (x / 360)) as H1. pose proof (Qlt_floor (x / 360)) as H2.
  rewrite inject_Z_plus in H2. change (inject_Z 1) with 1 in H2.
  set (f := inject_Z (Qfloor (x / 360))) in *.
  assert (x / 360 * 360 == x) as Hx by (field).
  split.
  - assert (f * 360 <= x / 360 * 360) by (apply Qmult_le_compat_r; [exact H1 | lra]). lra.
  - assert (x / 360 * 360 < (f + 1) * 360) by (apply Qmult_lt_compat_r; [lra | exact H2]). lra.
Qed.

#[local] Instance Qmod360_proper : Proper (Qeq ==> Qeq) Qmod360.
Proof.
  intros x y Hxy. unfold Qmod360.
  assert (Qfloor (x / 360) = Qfloor (y / 360)) as ->.
  { apply Qfloor_comp. apply Qdiv_comp; [exact Hxy | reflexivity]. }
  apply Qminus_comp; [exact Hxy | reflexivity].
Qed.

Lemma Qmod360_shift (x : Q) : Qmod360 (x + 360) == Qmod360 x.
Proof.
  unfold Qmod360.
  assert (Qfloor ((x + 360) / 360) = (Qfloor (x / 360) + 1)%Z) as ->.
  { apply Qfloor_unique.
    - pose proof (Qfloor_le (x / 360)). rewrite inject_Z_plus.
      change (inject_Z 1) with 1. assert ((x + 360) / 360 == x / 360 + 1) as -> by field. lra.
    - pose proof (Qlt_floor (x / 360)) as H2. rewrite !inject_Z_plus in *.
      change (inject_Z 1) with 1 in *.
      assert ((x + 360) / 360 == x / 360 + 1) as -> by field. lra. }
  rewrite inject_Z_plus. change (inject_Z 1) with 1. ring.
Qed.

(** On a non-negative dividend the operator [%] is the mathematical
    remainder. *)
Lemma Qrem_nonneg (x : Q) : 0 <= x → Qrem x 360 == Qmod360 x.
Proof.
  intros Hx. unfold Qrem, Qmod360, Qtrunc.
  assert (0 <= x / 360) as Hq.
  { apply Qle_shift_div_l; lra. }
  apply Qle_bool_iff in Hq. by rewrite Hq.
Qed.

Lemma getSliceIndexAtPoint_exact (polar rotation : Q) (n : Z) :
  -180 <= polar → 0 <= rotation <= 360 →
  getSliceIndexAtPoint polar rotation n = sliceIndexAtPoint_spec polar rotation n.
Proof.
  intros Hp [Hr1 Hr2].
  change (getSliceIndexAtPoint polar rotation n)
    with (Qfloor (Qrem (Qrem (polar + 360) 360 - rotation + 360) 360 / (360 / inject_Z n))).
  unfold sliceIndexAtPoint_spec. apply Qfloor_comp.
  assert (Qrem (polar + 360) 360 == Qmod360 polar) as H1.
  { rewrite Qrem_nonneg by lra. apply Qmod360_shift. }
  pose proof (Qmod360_range polar) as [? ?].
  assert (Qrem (Qrem (polar + 360) 360 - rotation + 360) 360
          == Qmod360 (Qmod360 polar - rotation)) as ->.
  { rewrite Qrem_nonneg by (rewrite H1; lra).
    rewrite Qmod360_shift. by rewrite H1. }
  reflexivity.
Qed.

Lemma sliceIndexAtPoint_spec_range (polar rotation : Q) (n : Z) :
  (0 < n)%Z → (0 <= sliceIndexAtPoint_spec polar rotation n < n)%Z.
Proof.
  intros Hn. unfold sliceIndexAtPoint_spec.
  set (a := Qmod360 (Qmod360 polar - rotation)).
  pose proof (Qmod360_range (Qmod360 polar - rotation)) as [Ha1 Ha2]. fold a in Ha1, Ha2.
  assert (0 < inject_Z n) as HnQ.
  { change (inject_Z 0 < inject_Z n). by rewrite <- Zlt_Qlt. }
  assert (a / (360 / inject_Z n) == a * inject_Z n / 360) as Hq by (field; lra).
  assert (0 <= a / (360 / inject_Z n)) as H1.
  { rewrite Hq. apply Qle_shift_div_l; [lra|]. 
    assert (0 * inject_Z n <= a * inject_Z n) by (apply Qmult_le_compat_r; lra). lra. }
  assert (a / (360 / inject_Z n) < inject_Z n) as H2.
  { rewrite Hq. apply Qlt_shift_div_r; [lra|].
    rewrite (Qmult_comm (inject_Z n) 360). apply Qmult_lt_compat_r; lra. }
  split.
  - change 0%Z with (Qfloor 0). by apply Qfloor_resp_le.
  - rewrite Zlt_Qlt. eapply Qle_lt_trans; [apply Qfloor_le | done].
Qed.

(** Without rounding, the expression of [getSliceIndexAtPoint] is the
    formula of the specification: the polar angle normalised into
    [0, 360), minus the rotation modulo 360, divided by
    [360 / sliceCount], floored (polar angle at least -180, rotation
    within [0, 360], as [Math.atan2] and [handleRotation] give them). *)
Lemma hit_test_without_rounding (polar rotation : Q) (n : Z) :
  -180 <= polar → 0 <= rotation <= 360 →
  getSliceIndexAtPoint polar rotation n = sliceIndexAtPoint_spec polar rotation n ∧
  (0 <= Qmod360 polar ∧ Qmod360 polar < 360) ∧
  (0 <= Qmod360 (Qmod360 polar - rotation) ∧ Qmod360 (Qmod360 polar - rotation) < 360).
Proof.
  intros Hp Hr. split; [by apply getSliceIndexAtPoint_exact|].
  split; apply Qmod360_range.
Qed.


(** In exact arithmetic the index is within [0, sliceCount). *)
Lemma hit_test_exact_in_range (polar rotation : Q) (n : Z) :
  -180 <= polar → 0 <= rotation <= 360 → (0 < n)%Z →
  (0 <= getSliceIndexAtPoint polar rotation n < n)%Z.
Proof.
  intros Hp Hr Hn. rewrite getSliceIndexAtPoint_exact by done.
  by apply sliceIndexAtPoint_spec_range.
Qed.

(** C10 fails in binary64: with 19 slices and rotation 1, a point whose
    polar angle is 0x1.ffffffffffe00p-1 (just below 1 degree) gets the
    index 19, one past the last slice.  The rotated angle is the largest
    double below 360, and its quotient by [360 / 19] rounds up to 19. *)
Lemma hit_test_binary64_returns_sliceCount :
  getSliceIndexAtPoint 0x1.ffffffffffe00p-1%float 1%float 19 = 19%Z.
Proof. vm_compute. reflexivity. Qed.

End HitTest.

(** ** Pinch *)

Section Pinch.
Import Interaction.
Context {num : Type} `{JSNumber num} {E : Type} `{NoteEngine E}.

Lemma clamp_sliceCount_clamp n : clamp_sliceCount n = clamp n 6 72.
Proof.
  unfold clamp_sliceCount, clamp.
  destruct (Z.ltb_spec n 6), (Z.ltb_spec 72 n); lia.
Qed.

(** C7: a pinch move changes the slice count by
    [round ((d - b) / 20)], clamped to [6, 72]; the baseline becomes the
    current separation exactly when the clamped count differs from the
    current one; the count stays within [6, 72]. *)
Theorem handlePinch_slice_count (d : num) (m : Manager num E) :
  6 ≤ sliceCount m ≤ 72 →
  let b := lastPinchDistance (dragState m) in
  let sliceDelta := math_round (num_div (num_sub d b) (num_of_Z 20)) in
  let newCount := clamp (sliceCount m - sliceDelta) 6 72 in
  let m' := handlePinch d m in
  sliceCount m' = newCount ∧
  lastPinchDistance (dragState m') = (if decide (newCount ≠ sliceCount m) then d else b) ∧
  6 ≤ sliceCount m' ≤ 72 ∧
  math_round (num_div (num_sub (160 : Q) (200 : Q)) (num_of_Z 20)) = -2 ∧
  math_round (num_div (num_sub 160%float 200%float) (num_of_Z 20)) = -2.
Proof.
  intros Hc b sliceDelta newCount m'. subst m'. unfold handlePinch.
  fold b. fold sliceDelta. rewrite clamp_sliceCount_clamp. fold newCount.
  assert (6 ≤ newCount ≤ 72) as Hn.
  { unfold newCount, clamp.
    destruct (Z.ltb_spec (sliceCount m - sliceDelta) 6),
      (Z.ltb_spec 72 (sliceCount m - sliceDelta)); lia. }
  destruct (Z.eqb_spec sliceDelta 0) as [Hz|Hz].
  - assert (newCount = sliceCount m) as Heq.
    { unfold newCount, clamp. rewrite Hz, Z.sub_0_r.
      destruct (Z.ltb_spec (sliceCount m) 6), (Z.ltb_spec 72 (sliceCount m)); lia. }
    rewrite decide_False by (intros ?; congruence). rewrite Heq.
    repeat split; (done || lia || (vm_compute; reflexivity)).
  - destruct (Z.eqb_spec newCount (sliceCount m)) as [Heq|Hne].
    + rewrite decide_False by (intros ?; congruence). rewrite Heq.
      repeat split; (done || lia || (vm_compute; reflexivity)).
    + rewrite decide_True by done. simpl.
      repeat split; (done || lia || (vm_compute; reflexivity)).
Qed.

End Pinch.

Lemma handlePinch_slice_count_witness :
  let m := mkManager (set_lastPinchDistance (200 : Q) initialDragState) 32 (58 : Q)
             Audio.initial [] in
  sliceCount (handlePinch (160 : Q) m) = 34 ∧
  lastPinchDistance (dragState (handlePinch (160 : Q) m)) = (160 : Q).
Proof.
  intros m.
  destruct (handlePinch_slice_count (160 : Q) m) as (H1 & H2 & _).
  - vm_compute. split; discriminate.
  - split; [exact H1 | exact H2].
Defined.

Section PinchScenario.
Import Interaction.

(** The scenario of C7: baseline 200, current separation 160. *)
Lemma handlePinch_scenario (c : Z) (d0 : DragState Q) (w : Audio.World) v :
  6 ≤ c ≤ 72 →
  let m := mkManager (set_lastPinchDistance (200 : Q) d0) c (0 : Q) w v in
  math_round (num_div (num_sub (160 : Q) (200 : Q)) (num_of_Z 20)) = -2 ∧
  sliceCount (handlePinch (160 : Q) m) = clamp (c + 2) 6 72.
Proof.
  intros Hc m. split; [vm_compute; reflexivity|].
  unfold handlePinch.
  change (math_round (num_div (num_sub (160 : Q) (lastPinchDistance (dragState m)))
                        (num_of_Z 20))) with (-2).
  change (sliceCount m) with c.
  rewrite clamp_sliceCount_clamp.
  replace (c - -2) with (c + 2) by lia.
  change (-2 =? 0) with false. cbn iota.
  destruct (Z.eqb_spec (clamp (c + 2) 6 72) c) as [Heq|Hne]; [by rewrite Heq|done].
Qed.

End PinchScenario.

(** ** The gesture session *)

Section Gestures.
Import Interaction.
Context {num : Type} `{JSNumber num} {E : Type} `{NoteEngine E}.

Lemma activateSlice_flags index (m : Manager num E) :
  isDragging (dragState (activateSlice index m)) = isDragging (dragState m) ∧
  isRotating (dragState (activateSlice index m)) = isRotating (dragState m) ∧
  isPinching (dragState (activateSlice index m)) = isPinching (dragState m).
Proof.
  unfold activateSlice. destruct (engine_isLocked index (audio m)); [done|].
  simpl. destruct (getSliceElement index _); done.
Qed.

Lemma handleEnd_idle (m : Manager num E) : idle m → handleEnd m = m.
Proof. intros (Hd & Hr & Hp). unfold handleEnd. by rewrite Hd, Hr, Hp. Qed.

Lemma idle_handleEnd (m : Manager num E) : idle (handleEnd m).
Proof.
  unfold handleEnd, idle.
  destruct (isDragging (dragState m)) eqn:Hd, (isRotating (dragState m)) eqn:Hr,
    (isPinching (dragState m)) eqn:Hp; simpl; done.
Qed.

Lemma dragState_releaseSlice_unless_locked index (m : Manager num E) :
  dragState (releaseSlice_unless_locked index m) = dragState m.
Proof. unfold releaseSlice_unless_locked. by destruct (engine_isLocked index (audio m)). Qed.

Lemma dragState_release_all l (m : Manager num E) :
  dragState (fold_left (λ m index, releaseSlice_unless_locked index m) l m) = dragState m.
Proof.
  revert m. induction l as [|index l IH]; intros m; simpl; [done|].
  by rewrite IH, dragState_releaseSlice_unless_locked.
Qed.

(** C9 (as the code has it): the release handler does nothing when no
    gesture is in progress, doing it twice is the same as doing it once,
    and it always leaves the three gesture flags cleared; when a gesture
    was in progress it also empties the pressed set and clears the slice,
    pinch and ring bookkeeping, keeping only the last angle. *)
Theorem handleEnd_idempotent (m : Manager num E) :
  (idle m → handleEnd m = m) ∧
  handleEnd (handleEnd m) = handleEnd m ∧
  idle (handleEnd m) ∧
  (¬ idle m →
   let d := dragState (handleEnd m) in
   pressedSlices d = [] ∧ lastRotationSlice d = None ∧ lastTouchedSlice d = None ∧
   lastPinchDistance d = num_of_Z 0 ∧ wasInGripperZone d = false ∧
   startedFromSlice d = false ∧ lastAngle d = lastAngle (dragState m)).
Proof.
  split; [apply handleEnd_idle|].
  split; [apply handleEnd_idle, idle_handleEnd|].
  split; [apply idle_handleEnd|].
  intros Hn. unfold handleEnd.
  destruct (isDragging (dragState m) || isRotating (dragState m) || isPinching (dragState m))
    eqn:Hf.
  - simpl. repeat split.
    destruct (isRotating (dragState m)); simpl;
      (destruct (lastRotationSlice (dragState m)); simpl;
       rewrite ?dragState_releaseSlice_unless_locked, dragState_release_all; done).
  - exfalso. apply Hn.
    apply orb_false_iff in Hf as [[? ?]%orb_false_iff ?]. by repeat split.
Qed.

(** C4 (as the code has it): from Idle a pointer-down sets at most one of
    the three gesture flags, a move changes nothing, and the global
    release clears all three from any state. *)
Theorem one_gesture_from_idle (e : PointerEvent num) (m : Manager num E) :
  idle m →
  (gestures (handleStart e m) ≤ 1)%nat ∧
  handleMove e m = m ∧
  ∀ m' : Manager num E, gestures (handleEnd m') = 0%nat.
Proof.
  intros (Hd & Hr & Hp). split; [|split].
  - unfold handleStart, gestures.
    destruct (match target e with
              | TSlice index => if engine_isLocked index (audio m) then Some index else None
              | _ => None
              end); [simpl; rewrite Hd, Hr, Hp; simpl; lia|].
    destruct (match two_or_more e with
              | Some (t1, t2) => inRing t1 && inRing t2
              | None => false
              end); [simpl; rewrite Hd, Hr; simpl; lia|].
    destruct ((match target e with TInnerPlate => true | _ => false end) && inRing (primary e));
      [simpl; rewrite Hd, Hp; simpl; lia|].
    destruct (target e); [|rewrite Hd, Hr, Hp; simpl; lia..].
    unfold startSliceDrag.
    destruct (activateSlice_flags index
                (with_dragState (λ d, set_startedFromSlice true (set_isDragging true d)) m))
      as (-> & -> & ->).
    simpl. rewrite Hr, Hp. simpl. lia.
  - unfold handleMove. rewrite Hp. simpl. rewrite Hd, Hr. simpl. done.
  - intros m'. destruct (idle_handleEnd m') as (Hd' & Hr' & Hp').
    unfold gestures. by rewrite Hd', Hr', Hp'.
Qed.

End Gestures.

Section GestureScenarios.

Let mouseDown (t : Target) (inside : bool) (a : Q) : PointerEvent Q :=
  {| target := t; touches := None;
     mouse := {| inRing := inside; angle := a; element := t |};
     touchDistance := 0%Q |}.

Let touchDown (ts : list (Touch Q)) (t : Target) (dist : Q) : PointerEvent Q :=
  {| target := t; touches := Some ts;
     mouse := {| inRing := false; angle := 0%Q; element := TOther |};
     touchDistance := dist |}.

Let start : Manager Q LegacyAudio.World := initial 32 58%Q LegacyAudio.initial.

Lemma handleEnd_idempotent_witness :
  let m := handleStart (mouseDown (TSlice 3) false 10%Q) start in
  ¬ idle m ∧
  handleEnd (handleEnd m) = handleEnd m ∧
  pressedSlices (dragState (handleEnd m)) = [] ∧
  handleEnd start = start.
Proof.
  intros m.
  destruct (handleEnd_idempotent m) as (_ & H2 & _ & H4).
  destruct (handleEnd_idempotent start) as (H1 & _).
  assert (Hn : ¬ idle m) by (intros (Hd & _); vm_compute in Hd; discriminate).
  split; [exact Hn|]. split; [exact H2|]. split; [apply (H4 Hn)|].
  apply H1. by repeat split.
Defined.

(** C9, as stated, fails after a keyboard press: no gesture is in
    progress, the release handler does nothing, and the pressed set is
    still not empty after it. *)
Lemma handleEnd_keeps_keyboard_press :
  let m := handleKeyboard 3 start in
  idle m ∧ pressedSlices (dragState m) = [3] ∧
  pressedSlices (dragState (handleEnd m)) = [3].
Proof. vm_compute. repeat split. Qed.

Lemma one_gesture_from_idle_witness :
  (gestures (handleStart (mouseDown (TSlice 3) false 10%Q) start) ≤ 1)%nat ∧
  handleMove (mouseDown TInnerPlate true 20%Q) start = start.
Proof.
  destruct (one_gesture_from_idle (mouseDown (TSlice 3) false 10) start) as (H1 & _).
  { by repeat split. }
  destruct (one_gesture_from_idle (mouseDown TInnerPlate true 20%Q) start) as (_ & H2 & _).
  { by repeat split. }
  split; [exact H1 | exact H2].
Defined.

(** C4, as stated, fails: a drag that began on slice 3 and moves into the
    rotation ring is SliceDragging and Rotating at once; and when a first
    finger holds the ring (Rotating) and a second one lands in it,
    Pinching is set beside Rotating. *)
Lemma drag_into_ring_is_dragging_and_rotating :
  let m1 := handleStart (mouseDown (TSlice 3) false 10%Q) start in
  let m2 := handleMove (mouseDown TInnerPlate true 20%Q) m1 in
  let finger := {| inRing := true; angle := (20 : Q); element := TInnerPlate |} in
  let m3 := handleStart (touchDown [finger] TInnerPlate 0%Q) start in
  let m4 := handleStart (touchDown [finger; finger] TInnerPlate 150%Q) m3 in
  (isDragging (dragState m2) = true ∧ isRotating (dragState m2) = true) ∧
  (isRotating (dragState m4) = true ∧ isPinching (dragState m4) = true) ∧
  gestures m2 = 2%nat ∧ gestures m4 = 2%nat.
Proof. vm_compute. repeat split. Qed.

End GestureScenarios.

(** * Further properties *)

(** ** More of the note lifecycle *)

Section MoreLifecycle.
Import Audio.

Lemma scale_letter_inj (r r' : Z) (s s' : string) :
  0 ≤ r < 7 → 0 ≤ r' < 7 →
  (if r <? 0 then "undefined" else default "undefined" (C_MAJOR_SCALE !! Z.to_nat r)) +:+ s
  = (if r' <? 0 then "undefined" else default "undefined" (C_MAJOR_SCALE !! Z.to_nat r')) +:+ s' →
  r = r' ∧ s = s'.
Proof.
  intros Hr Hr'.
  assert (r = 0 ∨ r = 1 ∨ r = 2 ∨ r = 3 ∨ r = 4 ∨ r = 5 ∨ r = 6) as Hc by lia.
  assert (r' = 0 ∨ r' = 1 ∨ r' = 2 ∨ r' = 3 ∨ r' = 4 ∨ r' = 5 ∨ r' = 6) as Hc' by lia.
  destruct Hc as [->|[->|[->|[->|[->|[->| ->]]]]]];
    destruct Hc' as [->|[->|[->|[->|[->|[->| ->]]]]]];
    cbn; intros [=]; done.
Qed.

(** Distinct slice indices (from 0 up) get distinct note names. *)
Theorem getNote_injective (i j : Z) :
  0 ≤ i → 0 ≤ j → getNote i = getNote j → i = j.
Proof.
  intros Hi Hj. unfold getNote.
  pose proof (Z.rem_bound_pos i 7 Hi ltac:(lia)) as Hri.
  pose proof (Z.rem_bound_pos j 7 Hj ltac:(lia)) as Hrj.
  intros [Hr Hs]%scale_letter_inj; [|done..].
  apply (inj pretty) in Hs.
  rewrite Z.rem_mod_nonneg in Hr by lia.
  rewrite (Z.rem_mod_nonneg j 7) in Hr by lia.
  rewrite (Z.div_mod i 7), (Z.div_mod j 7) by lia.
  assert (i `div` 7 = j `div` 7) as -> by lia. by rewrite Hr.
Qed.

Lemma getNote_injective_witness : 10 = 10.
Proof.
  apply (getNote_injective 10 10); [lia | lia | reflexivity].
Defined.


Lemma lockDrone_synth j w :
  synth (lockDrone j w) = synth w ∧ initPromise (lockDrone j w) = initPromise w ∧
  suspended (lockDrone j w) = suspended w ∧ synthLog (lockDrone j w) = synthLog w.
Proof.
  unfold lockDrone. destruct (activeNotes w !! j); [|done]. cbn.
  by destruct (lockTimeouts w !! j).
Qed.

Lemma playNote_resumed_synth k w :
  synth (playNote_resumed k w) = synth w ∧
  initPromise (playNote_resumed k w) = initPromise w ∧
  suspended (playNote_resumed k w) = suspended w.
Proof.
  unfold playNote_resumed. destruct (pendingNotes w !! k_index k) as [p|]; cbn; [|done].
  by destruct (shouldCancel p).
Qed.

Lemma synth_ready_step o w : synth_ready w → synth_ready (step o w).
Proof.
  intros [Hi Hr]. destruct o as [j cb|j force|j|j| |call|id]; simpl.
  - unfold playNote.
    destruct (lockedDrones w !! j) eqn:Hl; [done|].
    destruct (activeNotes w !! j) eqn:Ha; [done|].
    unfold synth_ready, init, _doInit. cbn.
    destruct (initPromise w) eqn:Hip; cbn.
    + rewrite Hi by done. split; [done | by left].
    + destruct (synth w) eqn:Hsy; cbn; rewrite ?Hsy; (split; [done | by left]).
  - unfold stopNote. destruct (bool_decide _ && negb force); [done|].
    destruct (activeNotes w !! j) as [n|] eqn:Ha.
    + destruct Hr as [Hs|(He & _)]; [|by rewrite He, lookup_empty in Ha].
      rewrite Hs. unfold synth_ready. cbn.
      destruct (lockTimeouts w !! j); cbn; (split; [intros _|left]; exact Hs).
    + destruct (pendingNotes w !! j); [|done]. by split.
  - destruct (lockDrone_synth j w) as (Hs & Hp & Hsus & _).
    unfold synth_ready. rewrite Hs, Hp, Hsus. split; [done|].
    destruct Hr as [?|(He & Hl & Hsu)]; [by left|right].
    unfold lockDrone. by rewrite He, lookup_empty.
  - unfold unlockDrone. destruct (lockedDrones w !! j) as [n|] eqn:Hl; [|done].
    destruct Hr as [Hs|(_ & He & _)]; [|by rewrite He, lookup_empty in Hl].
    cbn. rewrite Hs. cbn. split; [intros _|left]; exact Hs.
  - unfold synth_ready, stopAllNotes.
    destruct (synth w) eqn:Hs; cbn; rewrite ?Hs; cbn; rewrite ?Hs; cbn.
    + split; [intros _|left]; exact Hs.
    + split; [intros Hp; specialize (Hi Hp); congruence|].
      right. destruct Hr as [?|(_ & _ & ?)]; [congruence | done].
  - unfold resume. destruct (suspended w !! call) as [k|] eqn:Hk; [|done].
    destruct Hr as [Hs|(_ & _ & He)]; [|by rewrite He, lookup_empty in Hk].
    destruct (playNote_resumed_synth k
                (with_suspended (delete call (suspended w)) (nextCall w) w)) as (H1 & H2 & _).
    unfold synth_ready. rewrite H1, H2. cbn. split; [intros _|left]; exact Hs.
  - unfold fire. destruct (timers w !! id) as [k|] eqn:Hk; [|done].
    unfold autoLock_callback.
    set (w0 := with_timers (delete id (timers w)) (nextTimer w) w).
    destruct (lockDrone_synth (k_index k) w0) as (Hs & Hp & Hsus & _).
    assert (synth_ready (lockDrone (k_index k) w0)) as Hr0.
    { unfold synth_ready. rewrite Hs, Hp, Hsus. cbn. split; [done|].
      destruct Hr as [?|(He & Hl & Hsu)]; [by left|right].
      unfold lockDrone. cbn. by rewrite He, lookup_empty. }
    by destruct (k_onAutoLock k).
Qed.

Lemma reachable_synth_ready w : reachable w → synth_ready w.
Proof.
  intros [ops ->]. unfold run.
  assert (synth_ready initial) as H0 by (split; [done | by right]).
  revert H0. generalize initial. induction ops as [|o ops IH]; intros w0 H0; [done|].
  apply IH, synth_ready_step, H0.
Qed.

(** In a reachable state the synthesizer exists whenever a note is
    active or locked. *)
Lemma sounding_has_synth index w :
  reachable w → tag index w = Active ∨ tag index w = Locked → synth w = true.
Proof.
  intros [_ [?|(Ha & Hl & _)]]%reachable_synth_ready Ht; [done|].
  unfold tag in Ht. rewrite Ha, Hl, !lookup_empty in Ht.
  destruct (pendingNotes w !! index); by destruct Ht.
Qed.


Lemma tag_Active_inv index w :
  tag index w = Active →
  lockedDrones w !! index = None ∧ is_Some (activeNotes w !! index).
Proof.
  unfold tag. destruct (lockedDrones w !! index); [done|].
  destruct (activeNotes w !! index); [eauto|]. by destruct (pendingNotes w !! index).
Qed.

Lemma tag_Locked_inv index w :
  tag index w = Locked → is_Some (lockedDrones w !! index).
Proof.
  unfold tag. destruct (lockedDrones w !! index); [eauto|].
  destruct (activeNotes w !! index); [done|]. by destruct (pendingNotes w !! index).
Qed.

Lemma scheduled_timer_is_for_active_index_aux id k w :
  reachable w → timers w !! id = Some k →
  tag (k_index k) w = Active ∧ lockTimeouts w !! k_index k = Some id.
Proof.
  intros [_ _ H3 H4 H5 _ _]%reachable_Inv Hk.
  pose proof (H5 _ _ Hk) as Ht. split; [|done].
  destruct (H3 (k_index k)) as [n Hn]; [eauto|].
  apply (tag_Active (k_index k) n); [|done].
  destruct (lockedDrones w !! k_index k) eqn:Hl; [|done].
  rewrite H4 in Ht by eauto. done.
Qed.

(** Every scheduled auto-lock timer belongs to an index that is Active
    (neither stopped nor locked since), is the one registered for it in
    [lockTimeouts], and is the only one for that index: no stale timer is
    ever left behind. *)
Theorem scheduled_timer_is_for_active_index id k w :
  reachable w → timers w !! id = Some k →
  tag (k_index k) w = Active ∧
  lockTimeouts w !! k_index k = Some id ∧
  ∀ id' k', timers w !! id' = Some k' → k_index k' = k_index k → id' = id.
Proof.
  intros [_ _ H3 H4 H5 _ _]%reachable_Inv Hk.
  pose proof (H5 _ _ Hk) as Ht. split; [|split; [done|]].
  - destruct (H3 (k_index k)) as [n Hn]; [eauto|].
    apply (tag_Active (k_index k) n); [|done].
    destruct (lockedDrones w !! k_index k) eqn:Hl; [|done].
    rewrite H4 in Ht by eauto. done.
  - intros id' k' Hk' Heq. apply H5 in Hk'. rewrite Heq in Hk'. congruence.
Qed.

Lemma scheduled_timer_is_for_active_index_witness :
  let w := run [Play 4 true; Resume 0] initial in
  tag 4 w = Active ∧ lockTimeouts w !! 4 = Some 0%nat.
Proof.
  intros w.
  destruct (scheduled_timer_is_for_active_index 0 {| k_index := 4; k_onAutoLock := true |} w)
    as (H1 & H2 & _).
  - eexists. reflexivity.
  - vm_compute. reflexivity.
  - split; [exact H1 | exact H2].
Defined.

(** Stopping an Active index makes it Idle, releases its note once, and
    leaves no timer that could lock it later. *)
Theorem stopNote_active_goes_idle index force w :
  reachable w → tag index w = Active →
  let w' := stopNote index force w in
  tag index w' = Idle ∧
  synthLog w' = synthLog w ++ [TriggerRelease (getNote index)] ∧
  lockTimeouts w' !! index = None ∧
  ∀ id k, timers w' !! id = Some k → k_index k ≠ index.
Proof.
  intros Hr Ht. pose proof (sounding_has_synth index w Hr (or_introl Ht)) as Hs.
  pose proof (reachable_Inv w Hr) as [H1 _ _ _ H5 H6 _].
  destruct (tag_Active_inv _ _ Ht) as [Hl [n Ha]].
  assert (pendingNotes w !! index = None) as Hp.
  { destruct (pendingNotes w !! index) eqn:Hp; [|done]. rewrite H1 in Ha by eauto. done. }
  rewrite (H6 _ _ Ha) in Ha.
  unfold stopNote. rewrite Hl, Ha, Hs. cbn.
  destruct (lockTimeouts w !! index) as [t|] eqn:Hto; cbn.
  - repeat split.
    + apply tag_Idle. cbn. by rewrite lookup_delete_eq.
    + apply lookup_delete_eq.
    + intros id k Hk Hi. apply lookup_delete_Some in Hk as [Hne Hk].
      apply H5 in Hk. rewrite Hi in Hk. congruence.
  - repeat split.
    + apply tag_Idle. cbn. by rewrite lookup_delete_eq.
    + done.
    + intros id k Hk Hi. apply H5 in Hk. rewrite Hi in Hk. congruence.
Qed.

Lemma stopNote_active_goes_idle_witness :
  let w := run [Play 4 true; Resume 0] initial in
  tag 4 (stopNote 4 false w) = Idle ∧
  synthLog (stopNote 4 false w) = [TriggerAttack "G3"; TriggerRelease "G3"].
Proof.
  intros w. destruct (stopNote_active_goes_idle 4 false w) as (H1 & H2 & _).
  - eexists. reflexivity.
  - vm_compute. reflexivity.
  - split; [exact H1 | exact H2].
Defined.

(** [lockDrone] works only from Active: on an index that is not in
    [activeNotes] it changes nothing; on an Active index it makes it
    Locked, makes no call on the synthesizer (the note keeps sounding),
    keeps the index in [activeNotes] and leaves no timer for it. *)
Theorem lockDrone_only_from_active index w :
  reachable w →
  (activeNotes w !! index = None → lockDrone index w = w) ∧
  (tag index w = Active →
   let w' := lockDrone index w in
   tag index w' = Locked ∧ synthLog w' = synthLog w ∧
   activeNotes w' = activeNotes w ∧
   lockTimeouts w' !! index = None ∧
   ∀ id k, timers w' !! id = Some k → k_index k ≠ index).
Proof.
  intros Hr. split.
  - intros Ha. unfold lockDrone. by rewrite Ha.
  - intros Ht. pose proof (reachable_Inv w Hr) as [_ _ _ _ H5 _ _].
    destruct (tag_Active_inv _ _ Ht) as [Hl [n Ha]].
    unfold lockDrone. rewrite Ha. cbn.
    destruct (lockTimeouts w !! index) as [t|] eqn:Hto; cbn.
    + repeat split.
      * unfold tag. cbn. by rewrite lookup_insert_eq.
      * apply lookup_delete_eq.
      * intros id k Hk Hi. apply lookup_delete_Some in Hk as [Hne Hk].
        apply H5 in Hk. rewrite Hi in Hk. congruence.
    + repeat split.
      * unfold tag. cbn. by rewrite lookup_insert_eq.
      * done.
      * intros id k Hk Hi. apply H5 in Hk. rewrite Hi in Hk. congruence.
Qed.

Lemma lockDrone_only_from_active_witness :
  let w := run [Play 4 true; Resume 0] initial in
  lockDrone 5 w = w ∧ tag 4 (lockDrone 4 w) = Locked.
Proof.
  intros w. destruct (lockDrone_only_from_active 4 w) as (_ & H2).
  { eexists. reflexivity. }
  destruct (lockDrone_only_from_active 5 w) as (H1 & _).
  { eexists. reflexivity. }
  split.
  - apply H1. vm_compute. reflexivity.
  - apply H2. vm_compute. reflexivity.
Defined.

(** When an auto-lock timer fires, its index becomes Locked, the
    [onAutoLock] callback (if one was given) is called with the index,
    the synthesizer is not touched, and the timer is gone; an id that is
    not scheduled (fired or cleared before) does nothing. *)
Theorem fire_locks_the_active_index id w :
  reachable w →
  (timers w !! id = None → fire id w = w) ∧
  ∀ k, timers w !! id = Some k →
    let w' := fire id w in
    tag (k_index k) w' = Locked ∧
    autoLockLog w' = autoLockLog w ++ (if k_onAutoLock k then [k_index k] else []) ∧
    synthLog w' = synthLog w ∧
    timers w' = delete id (timers w) ∧
    lockTimeouts w' !! k_index k = None.
Proof.
  intros Hr. split.
  - intros Hn. unfold fire. by rewrite Hn.
  - intros k Hk.
    destruct (scheduled_timer_is_for_active_index_aux id k w Hr Hk) as (Ht & Hto).
    destruct (tag_Active_inv _ _ Ht) as [Hl [n Ha]].
    unfold fire. rewrite Hk. unfold autoLock_callback, lockDrone. cbn.
    rewrite Ha, Hto. cbn.
    assert (delete id (delete id (timers w)) = delete id (timers w)) as Hdd.
    { apply delete_id, lookup_delete_eq. }
    destruct (k_onAutoLock k); cbn; rewrite Hdd, ?app_nil_r.
    all: repeat split; try done; try apply lookup_delete_eq.
    all: unfold tag; cbn; by rewrite lookup_insert_eq.
Qed.


Lemma fire_locks_the_active_index_witness :
  let w := run [Play 4 true; Resume 0] initial in
  tag 4 (fire 0 w) = Locked ∧ autoLockLog (fire 0 w) = [4] ∧ fire 7 w = w.
Proof.
  intros w. destruct (fire_locks_the_active_index 0 w) as (_ & H2).
  { eexists. reflexivity. }
  destruct (fire_locks_the_active_index 7 w) as (H1 & _).
  { eexists. reflexivity. }
  destruct (H2 {| k_index := 4; k_onAutoLock := true |}) as (Ha & Hb & _).
  { vm_compute. reflexivity. }
  split; [exact Ha|]. split; [exact Hb|]. apply H1. vm_compute. reflexivity.
Defined.

(** [unlockDrone] works only from Locked: it makes the index Idle and
    releases its note once; on an index that is not locked it changes
    nothing. *)
Theorem unlockDrone_only_from_locked index w :
  reachable w →
  (tag index w ≠ Locked → unlockDrone index w = w) ∧
  (tag index w = Locked →
   let w' := unlockDrone index w in
   tag index w' = Idle ∧
   synthLog w' = synthLog w ++ [TriggerRelease (getNote index)] ∧
   timers w' = timers w).
Proof.
  intros Hr. split.
  - intros Ht. unfold unlockDrone, tag in *.
    destruct (lockedDrones w !! index); [done|]. done.
  - intros Ht. pose proof (sounding_has_synth index w Hr (or_intror Ht)) as Hs.
    pose proof (reachable_Inv w Hr) as [_ H2 _ _ _ _ H7].
    destruct (tag_Locked_inv _ _ Ht) as [n Hl].
    assert (pendingNotes w !! index = None) as Hp.
    { destruct (pendingNotes w !! index) eqn:Hp; [|done]. rewrite H2 in Hl by eauto. done. }
    rewrite (H7 _ _ Hl) in Hl.
    unfold unlockDrone. rewrite Hl. cbn. rewrite Hs. cbn.
    repeat split. apply tag_Idle. cbn. by rewrite !lookup_delete_eq.
Qed.

Lemma unlockDrone_only_from_locked_witness :
  let w := run [Play 4 true; Resume 0; Fire 0] initial in
  unlockDrone 5 w = w ∧ tag 4 (unlockDrone 4 w) = Idle.
Proof.
  intros w. destruct (unlockDrone_only_from_locked 4 w) as (_ & H2).
  { eexists. reflexivity. }
  destruct (unlockDrone_only_from_locked 5 w) as (H1 & _).
  { eexists. reflexivity. }
  split.
  - apply H1. vm_compute. discriminate.
  - apply H2. vm_compute. reflexivity.
Defined.

(** A forced stop of a locked drone releases the note but does not
    unlock it: the index stays in [lockedDrones], so it is still Locked,
    a later start is still ignored, and a later [unlockDrone] releases
    the note a second time. *)
Theorem forced_stop_leaves_index_locked index w :
  reachable w → tag index w = Locked → is_Some (activeNotes w !! index) →
  let w' := stopNote index true w in
  tag index w' = Locked ∧
  activeNotes w' !! index = None ∧
  synthLog w' = synthLog w ++ [TriggerRelease (getNote index)] ∧
  (∀ cb, playNote index cb w' = w') ∧
  synthLog (unlockDrone index w')
    = synthLog w ++ [TriggerRelease (getNote index); TriggerRelease (getNote index)].
Proof.
  intros Hr Ht [n Ha].
  pose proof (sounding_has_synth index w Hr (or_intror Ht)) as Hs.
  pose proof (reachable_Inv w Hr) as [_ _ _ H4 _ H6 H7].
  destruct (tag_Locked_inv _ _ Ht) as [n' Hl].
  rewrite (H6 _ _ Ha) in Ha. rewrite (H7 _ _ Hl) in Hl.
  assert (lockTimeouts w !! index = None) as Hto by (apply H4; eauto).
  unfold stopNote. rewrite Hl, Ha, Hs. cbn. rewrite Hto. cbn.
  repeat split.
  - unfold tag. cbn. by rewrite Hl.
  - apply lookup_delete_eq.
  - intros cb. unfold playNote. cbn. by rewrite Hl.
  - unfold unlockDrone. cbn. rewrite Hl. cbn. rewrite Hs. cbn.
    by rewrite <- app_assoc.
Qed.

Lemma forced_stop_leaves_index_locked_witness :
  let w := run [Play 4 true; Resume 0; Fire 0] initial in
  tag 4 (stopNote 4 true w) = Locked ∧ activeNotes (stopNote 4 true w) !! 4 = None.
Proof.
  intros w. destruct (forced_stop_leaves_index_locked 4 w) as (H1 & H2 & _).
  - eexists. reflexivity.
  - vm_compute. reflexivity.
  - vm_compute. eauto.
  - split; [exact H1 | exact H2].
Defined.

Lemma start_then_ready index cb w :
  tag index w = Idle →
  let w1 := playNote index cb w in
  let w2 := resume (nextCall w) w1 in
  tag index w1 = Pending ∧
  tag index w2 = Active ∧
  synthLog w2 = synthLog w ++ [TriggerAttack (getNote index)] ∧
  timers w2 = <[nextTimer w := {| k_index := index; k_onAutoLock := cb |}]> (timers w) ∧
  lockTimeouts w2 !! index = Some (nextTimer w) ∧
  pendingNotes w2 !! index = None.
Proof.
  intros (Hl & Ha & Hp)%tag_Idle. cbn zeta.
  destruct (playNote_start index cb w Hl Ha)
    as (Hp1 & Ha1 & Hl1 & _ & Hs1 & _ & Ht1 & Hn1 & Hlog1). cbn zeta in *.
  set (w1 := playNote index cb w) in *.
  assert (suspended w1 !! nextCall w = Some {| k_index := index; k_onAutoLock := cb |}) as Hk.
  { by rewrite Hs1, lookup_insert_eq. }
  assert (pendingNotes w1 !! index
          = Some {| shouldCancel := false; note := getNote index |}) as Hpend.
  { by rewrite Hp1, lookup_insert_eq. }
  destruct (resume_goes_through (nextCall w) _ _ w1 Hk Hpend eq_refl)
    as (Hlog & Hpe & Hact & Hlock & Hto & Htm & _). cbn zeta in *.
  cbn [k_index] in *. set (w2 := resume (nextCall w) w1) in *.
  repeat split.
  - unfold tag. by rewrite Hl1, Hl, Ha1, Ha, Hpend.
  - apply (tag_Active index (getNote index)).
    + by rewrite Hlock, Hl1.
    + by rewrite Hact, lookup_insert_eq.
  - by rewrite Hlog, Hlog1.
  - by rewrite Htm, Hn1, Ht1.
  - by rewrite Hto, Hn1, lookup_insert_eq.
  - by rewrite Hpe, lookup_delete_eq.
Qed.

(** A start on an Idle index, once its readiness wait has resolved with
    no stop in between, makes the index Active with one attack and arms
    one auto-lock timer, registered under the index. *)
Theorem start_then_ready_is_active index cb w :
  tag index w = Idle →
  let w1 := playNote index cb w in
  let w2 := resume (nextCall w) w1 in
  tag index w1 = Pending ∧
  tag index w2 = Active ∧
  synthLog w2 = synthLog w ++ [TriggerAttack (getNote index)] ∧
  timers w2 = <[nextTimer w := {| k_index := index; k_onAutoLock := cb |}]> (timers w) ∧
  lockTimeouts w2 !! index = Some (nextTimer w) ∧
  pendingNotes w2 !! index = None.
Proof. apply start_then_ready. Qed.

Lemma start_then_ready_is_active_witness :
  tag 9 (resume 0 (playNote 9 true initial)) = Active ∧
  synthLog (resume 0 (playNote 9 true initial)) = [TriggerAttack "E4"].
Proof.
  destruct (start_then_ready_is_active 9 true initial) as (_ & H1 & H2 & _).
  - vm_compute. reflexivity.
  - split; [exact H1 | exact H2].
Defined.


(** The methods work index by index: starting, stopping, locking or
    unlocking one index, resuming a start parked for it or firing its
    timer never changes the lifecycle tag of another index. *)
Theorem other_indices_are_untouched index j w :
  j ≠ index →
  (∀ cb, tag j (playNote index cb w) = tag j w) ∧
  (∀ force, tag j (stopNote index force w) = tag j w) ∧
  tag j (lockDrone index w) = tag j w ∧
  tag j (unlockDrone index w) = tag j w ∧
  (∀ call k, suspended w !! call = Some k → k_index k = index →
             tag j (resume call w) = tag j w) ∧
  (∀ id k, timers w !! id = Some k → k_index k = index →
           tag j (fire id w) = tag j w).
Proof.
  intros Hne.
  assert (Hlock : tag j (lockDrone index w) = tag j w).
  { unfold lockDrone. destruct (activeNotes w !! index); [|done]. cbn.
    destruct (lockTimeouts w !! index); unfold tag; cbn;
      by rewrite lookup_insert_ne. }
  repeat split.
  - intros cb. unfold playNote.
    destruct (lockedDrones w !! index); [done|].
    destruct (activeNotes w !! index); [done|].
    unfold init, _doInit. cbn.
    destruct (initPromise w); cbn; [|destruct (synth w); cbn];
      unfold tag; cbn; by rewrite lookup_insert_ne.
  - intros force. unfold stopNote.
    destruct (bool_decide _ && negb force); [done|].
    destruct (activeNotes w !! index).
    + cbn. destruct (synth w); cbn;
        (destruct (lockTimeouts w !! index); unfold tag; cbn;
         by rewrite lookup_delete_ne).
    + destruct (pendingNotes w !! index); [|done].
      unfold tag; cbn. by rewrite lookup_insert_ne.
  - done.
  - unfold unlockDrone. destruct (lockedDrones w !! index); [|done]. cbn.
    destruct (synth w); unfold tag; cbn; by rewrite !lookup_delete_ne.
  - intros call k Hk <-. unfold resume. rewrite Hk. unfold playNote_resumed. cbn.
    destruct (pendingNotes w !! k_index k) as [p|]; cbn.
    + destruct (shouldCancel p); unfold tag; cbn;
        by rewrite ?lookup_insert_ne, ?lookup_delete_ne.
    + unfold tag; cbn. by rewrite lookup_delete_ne.
  - intros id k Hk <-. unfold fire. rewrite Hk. unfold autoLock_callback, lockDrone. cbn.
    destruct (activeNotes w !! k_index k); cbn.
    + destruct (lockTimeouts w !! k_index k); destruct (k_onAutoLock k);
        unfold tag; cbn; by rewrite lookup_insert_ne.
    + by destruct (k_onAutoLock k).
Qed.

Lemma other_indices_are_untouched_witness :
  let w := run [Play 4 true; Resume 0] initial in
  tag 4 (stopNote 5 false w) = tag 4 w ∧ tag 4 (lockDrone 5 w) = tag 4 w.
Proof.
  intros w. destruct (other_indices_are_untouched 5 4 w) as (_ & H1 & H2 & _).
  - lia.
  - split; [apply H1 | apply H2].
Defined.

Lemma stopAllNotes_log w :
  synthLog (stopAllNotes w)
  = if synth w
    then synthLog w ++ (TriggerRelease <$> (map_to_list (activeNotes w)).*2)
                    ++ (TriggerRelease <$> (map_to_list (lockedDrones w)).*2)
    else synthLog w.
Proof.
  unfold stopAllNotes.
  destruct (synth w) eqn:Hs; cbn; rewrite ?Hs; cbn; rewrite ?Hs; cbn; [|done].
  by rewrite <- app_assoc.
Qed.

Lemma stopAllNotes_when_silent w :
  pendingNotes w = ∅ → activeNotes w = ∅ → lockedDrones w = ∅ → lockTimeouts w = ∅ →
  stopAllNotes w = w.
Proof.
  destruct w as [sy ip pn an ld lt su nc tm nt sl al]. cbn. intros -> -> -> ->.
  unfold stopAllNotes. cbn.
  destruct sy; cbn; rewrite ?fmap_empty, ?map_to_list_empty; cbn; by rewrite ?app_nil_r.
Qed.

(** The panic path releases every sounding note: after [stopAllNotes]
    the synthesizer has received, and only received, release calls, one
    of them for each index that was Active or Locked; calling it a second
    time changes nothing. *)
Theorem stopAllNotes_releases_every_sounding_note w :
  reachable w →
  (∃ released,
     synthLog (stopAllNotes w) = synthLog w ++ (TriggerRelease <$> released) ∧
     ∀ index, tag index w = Active ∨ tag index w = Locked → getNote index ∈ released) ∧
  stopAllNotes (stopAllNotes w) = stopAllNotes w.
Proof.
  intros Hr. split.
  - pose proof (reachable_Inv w Hr) as [_ _ _ _ _ H6 H7].
    rewrite stopAllNotes_log. destruct (synth w) eqn:Hs.
    + exists ((map_to_list (activeNotes w)).*2 ++ (map_to_list (lockedDrones w)).*2).
      split; [by rewrite fmap_app|].
      intros index [Ht|Ht]; apply elem_of_app.
      * destruct (tag_Active_inv _ _ Ht) as [_ [n Ha]]. left.
        apply list_elem_of_fmap. exists (index, n). split.
        -- by rewrite (H6 _ _ Ha).
        -- by apply elem_of_map_to_list.
      * destruct (tag_Locked_inv _ _ Ht) as [n Hl]. right.
        apply list_elem_of_fmap. exists (index, n). split.
        -- by rewrite (H7 _ _ Hl).
        -- by apply elem_of_map_to_list.
    + exists []. split; [by rewrite app_nil_r|].
      intros index Ht. pose proof (sounding_has_synth index w Hr Ht). congruence.
  - destruct (stopAllNotes_maps w) as (Hp & Ha & Hl & Ht & _).
    by apply stopAllNotes_when_silent.
Qed.

Lemma stopAllNotes_releases_every_sounding_note_witness :
  let w := run [Play 4 true; Play 6 true; Resume 0; Resume 1; Fire 0] initial in
  stopAllNotes (stopAllNotes w) = stopAllNotes w.
Proof.
  intros w. destruct (stopAllNotes_releases_every_sounding_note w) as (_ & H).
  - eexists. reflexivity.
  - exact H.
Defined.

End MoreLifecycle.

(** ** The AudioEngine of the monolithic script *)

Section LegacyLifecycle.
Import LegacyAudio.

Lemma legacy_playNote_fields index cb w :
  let w' := playNote index cb w in
  synth w' = true ∧ activeNotes w' = activeNotes w ∧ lockedDrones w' = lockedDrones w ∧
  lockTimeouts w' = lockTimeouts w ∧
  suspended w' = <[nextCall w := {| k_index := index; k_onAutoLock := cb |}]> (suspended w) ∧
  nextCall w' = S (nextCall w) ∧ timers w' = timers w ∧ nextTimer w' = nextTimer w ∧
  synthLog w' = synthLog w.
Proof.
  unfold playNote, init. destruct (synth w) eqn:Hs; cbn; rewrite ?Hs; done.
Qed.

Lemma legacy_resume_attacks call k w :
  suspended w !! call = Some k →
  lockedDrones w !! k_index k = None → activeNotes w !! k_index k = None →
  synthLog (resume call w) = synthLog w ++ [Audio.TriggerAttack (getNote (k_index k))] ∧
  activeNotes (resume call w) = <[k_index k := getNote (k_index k)]> (activeNotes w) ∧
  suspended (resume call w) = delete call (suspended w) ∧
  timers (resume call w) = <[nextTimer w := k]> (timers w).
Proof.
  intros Hk Hl Ha. unfold resume. rewrite Hk. unfold playNote_resumed. cbn.
  rewrite Hl, Ha. cbn. done.
Qed.

Lemma legacy_resume_finds_active call k n w :
  suspended w !! call = Some k → activeNotes w !! k_index k = Some n →
  synthLog (resume call w) = synthLog w ∧ activeNotes (resume call w) = activeNotes w ∧
  timers (resume call w) = timers w.
Proof.
  intros Hk Ha. unfold resume. rewrite Hk. unfold playNote_resumed. cbn.
  rewrite Ha. by destruct (lockedDrones w !! k_index k).
Qed.

(** Without [pendingNotes] a start cannot be cancelled: a stop, or even
    [stopAllNotes], issued while the start waits for the audio context
    changes nothing for it, and when the wait resolves the note is
    attacked and stays active although it was stopped. *)
Theorem legacy_stop_does_not_cancel_a_waiting_start index cb w :
  lockedDrones w !! index = None → activeNotes w !! index = None →
  let w1 := playNote index cb w in
  stopNote index false w1 = w1 ∧
  synthLog (resume (nextCall w) (stopNote index false w1))
    = synthLog w ++ [Audio.TriggerAttack (getNote index)] ∧
  activeNotes (resume (nextCall w) (stopNote index false w1)) !! index = Some (getNote index) ∧
  activeNotes (resume (nextCall w) (stopAllNotes w1)) !! index = Some (getNote index).
Proof.
  intros Hl Ha. cbn zeta.
  destruct (legacy_playNote_fields index cb w)
    as (Hsy & Ha1 & Hl1 & Hto1 & Hs1 & _ & _ & _ & Hlog1). cbn zeta in *.
  set (w1 := playNote index cb w) in *. clearbody w1.
  assert (stopNote index false w1 = w1) as Hstop.
  { unfold stopNote. rewrite Hl1, Hl, Ha1, Ha. cbn. done. }
  assert (suspended w1 !! nextCall w = Some {| k_index := index; k_onAutoLock := cb |}) as Hk.
  { by rewrite Hs1, lookup_insert_eq. }
  rewrite Hstop.
  destruct (legacy_resume_attacks (nextCall w) _ w1 Hk) as (H1 & H2 & _).
  { cbn [k_index]. by rewrite Hl1. }
  { cbn [k_index]. by rewrite Ha1. }
  cbn [k_index] in *. repeat split; try done.
  - by rewrite H1, Hlog1.
  - by rewrite H2, lookup_insert_eq.
  - assert (suspended (stopAllNotes w1) = suspended w1 ∧
            lockedDrones (stopAllNotes w1) = ∅ ∧ activeNotes (stopAllNotes w1) = ∅)
      as (Hs2 & Hl2 & Ha2).
    { unfold stopAllNotes. rewrite Hsy. cbn. rewrite Hsy. cbn. done. }
    destruct (legacy_resume_attacks (nextCall w) {| k_index := index; k_onAutoLock := cb |}
                (stopAllNotes w1)) as (_ & H3 & _).
    { by rewrite Hs2. }
    { cbn [k_index]. by rewrite Hl2. }
    { cbn [k_index]. by rewrite Ha2. }
    cbn [k_index] in H3. by rewrite H3, lookup_insert_eq.
Qed.

Lemma legacy_stop_does_not_cancel_a_waiting_start_witness :
  synthLog (resume 0 (stopNote 2 false (playNote 2 true initial)))
  = [Audio.TriggerAttack "E3"].
Proof.
  destruct (legacy_stop_does_not_cancel_a_waiting_start 2 true initial) as (_ & H & _).
  - reflexivity.
  - reflexivity.
  - exact H.
Defined.

(** In the script's engine too, two starts issued for one index before
    the audio context is ready attack the note once: the continuation
    that resumes second finds the index in [activeNotes] and does
    nothing. *)
Theorem legacy_two_starts_one_attack index cb1 cb2 w :
  lockedDrones w !! index = None → activeNotes w !! index = None →
  let w2 := playNote index cb2 (playNote index cb1 w) in
  let c1 := nextCall w in
  let c2 := S (nextCall w) in
  synthLog (resume c2 (resume c1 w2)) = synthLog w ++ [Audio.TriggerAttack (getNote index)] ∧
  synthLog (resume c1 (resume c2 w2)) = synthLog w ++ [Audio.TriggerAttack (getNote index)] ∧
  timers (resume c2 (resume c1 w2))
    = <[nextTimer w := {| k_index := index; k_onAutoLock := cb1 |}]> (timers w) ∧
  timers (resume c1 (resume c2 w2))
    = <[nextTimer w := {| k_index := index; k_onAutoLock := cb2 |}]> (timers w).
Proof.
  intros Hl Ha. cbn zeta.
  destruct (legacy_playNote_fields index cb1 w)
    as (_ & Ha1 & Hl1 & _ & Hs1 & Hn1 & Ht1 & Hnt1 & Hlog1). cbn zeta in *.
  set (w1 := playNote index cb1 w) in *. clearbody w1.
  destruct (legacy_playNote_fields index cb2 w1)
    as (_ & Ha2 & Hl2 & _ & Hs2 & _ & Ht2 & Hnt2 & Hlog2). cbn zeta in *.
  set (w2 := playNote index cb2 w1) in *. clearbody w2.
  assert (nextCall w ≠ S (nextCall w)) as Hne by lia.
  assert (suspended w2 !! nextCall w = Some {| k_index := index; k_onAutoLock := cb1 |}) as Hc1.
  { rewrite Hs2, Hn1, Hs1. by rewrite lookup_insert_ne, lookup_insert_eq. }
  assert (suspended w2 !! S (nextCall w)
          = Some {| k_index := index; k_onAutoLock := cb2 |}) as Hc2.
  { rewrite Hs2, Hn1. by rewrite lookup_insert_eq. }
  assert (lockedDrones w2 !! index = None) as Hl' by (by rewrite Hl2, Hl1).
  assert (activeNotes w2 !! index = None) as Ha' by (by rewrite Ha2, Ha1).
  assert (∀ c c' k k', c ≠ c' →
            suspended w2 !! c = Some k → suspended w2 !! c' = Some k' →
            k_index k = index → k_index k' = index →
            synthLog (resume c' (resume c w2))
              = synthLog w ++ [Audio.TriggerAttack (getNote index)] ∧
            timers (resume c' (resume c w2)) = <[nextTimer w := k]> (timers w)) as Hboth.
  { intros c c' k k' Hcc Hk Hk' Hi Hi'.
    destruct (legacy_resume_attacks c k w2 Hk) as (H1 & H2 & H3 & H4);
      [by rewrite Hi | by rewrite Hi |].
    destruct (legacy_resume_finds_active c' k' (getNote index) (resume c w2))
      as (H5 & _ & H6).
    { by rewrite H3, lookup_delete_ne. }
    { by rewrite H2, Hi, Hi', lookup_insert_eq. }
    rewrite H5, H6, H1, H4, Hi. by rewrite Hlog2, Hlog1, Ht2, Ht1, Hnt2, Hnt1. }
  destruct (Hboth _ _ _ _ Hne Hc1 Hc2 eq_refl eq_refl) as (? & ?).
  destruct (Hboth _ _ _ _ (not_eq_sym Hne) Hc2 Hc1 eq_refl eq_refl) as (? & ?).
  done.
Qed.

Lemma legacy_two_starts_one_attack_witness :
  synthLog (resume 1 (resume 0 (playNote 2 true (playNote 2 true initial))))
  = [Audio.TriggerAttack "E3"].
Proof.
  destruct (legacy_two_starts_one_attack 2 true true initial) as (H & _).
  - reflexivity.
  - reflexivity.
  - exact H.
Defined.

End LegacyLifecycle.

(** ** StateManager *)

Section StateManagerFacts.
Import State.
Context {V : Type} `{EqDecision V} {C : Type}.
Implicit Types (s : StateManager V C) (key : string) (callback : nat).

(** A value written with [set] is read back by [get], and no other key
    is affected. *)
Theorem set_then_get key (value : V) s :
  get key (set key value s) = Some value ∧
  ∀ other, other ≠ key → get other (set key value s) = get other s.
Proof.
  unfold set, get. destruct (decide (_state s !! key = Some value)) as [Heq|Hne].
  - split; [done|]. done.
  - unfold _notify. cbn. destruct (_listeners s !! key); cbn.
    + split; [apply lookup_insert_eq|]. intros other Ho. by apply lookup_insert_ne.
    + split; [apply lookup_insert_eq|]. intros other Ho. by apply lookup_insert_ne.
Qed.

Lemma set_changed key (value : V) s :
  get key s ≠ Some value →
  notified (set key value s)
    = notified s ++ ((λ callback, (callback, value, key)) <$> listeners_of key s).
Proof.
  unfold set, get, listeners_of. intros Hne. rewrite decide_False by done.
  unfold _notify. cbn. destruct (_listeners s !! key); cbn; [done|]. by rewrite app_nil_r.
Qed.

Lemma listeners_of_subscribe_key callback (ls : gmap string (list nat)) key key' :
  default [] (subscribe_key callback ls key' !! key)
  = if decide (key = key') then callbacks_add callback (default [] (ls !! key))
    else default [] (ls !! key).
Proof.
  unfold subscribe_key. destruct (decide (key = key')) as [->|Hne].
  - destruct (ls !! key') as [l|] eqn:Hl.
    + by rewrite lookup_alter_eq, Hl.
    + by rewrite lookup_alter_eq, lookup_insert_eq.
  - rewrite lookup_alter_ne by done.
    destruct (ls !! key'); [done|]. by rewrite lookup_insert_ne.
Qed.

Lemma callbacks_add_idem callback l :
  callbacks_add callback (callbacks_add callback l) = callbacks_add callback l.
Proof.
  unfold callbacks_add. destruct (decide (callback ∈ l)) as [Hin|Hnin].
  - by rewrite decide_True.
  - rewrite decide_True; [done|]. apply elem_of_app. right. by apply list_elem_of_singleton.
Qed.

Lemma listeners_of_subscribe keys callback s key :
  listeners_of key (subscribe keys callback s)
  = if decide (key ∈ keys) then callbacks_add callback (listeners_of key s)
    else listeners_of key s.
Proof.
  unfold listeners_of, subscribe. cbn. generalize (_listeners s).
  induction keys as [|k keys IH]; intros ls; cbn.
  - rewrite decide_False; [done | apply not_elem_of_nil].
  - rewrite IH, listeners_of_subscribe_key.
    destruct (decide (key = k)) as [->|Hne].
    + rewrite (decide_True (P := k ∈ k :: keys)) by left.
      destruct (decide (k ∈ keys)); [apply callbacks_add_idem | done].
    + destruct (decide (key ∈ keys)) as [Hin|Hnin].
      * rewrite decide_True; [done | by right].
      * rewrite decide_False; [done|]. intros [?|?]%elem_of_cons; done.
Qed.

Lemma callbacks_delete_idem callback l :
  callbacks_delete callback (callbacks_delete callback l) = callbacks_delete callback l.
Proof.
  unfold callbacks_delete. induction l as [|c l IH]; [done|].
  rewrite !filter_cons. destruct (decide (c ≠ callback)).
  - rewrite filter_cons, decide_True by done. by rewrite IH.
  - done.
Qed.

Lemma listeners_of_unsubscribe keys callback s key :
  listeners_of key (unsubscribe keys callback s)
  = if decide (key ∈ keys) then callbacks_delete callback (listeners_of key s)
    else listeners_of key s.
Proof.
  unfold listeners_of, unsubscribe. cbn. generalize (_listeners s).
  induction keys as [|k keys IH]; intros ls; cbn.
  - rewrite decide_False; [done | apply not_elem_of_nil].
  - rewrite IH. destruct (decide (key = k)) as [->|Hne].
    + rewrite (decide_True (P := k ∈ k :: keys)) by left.
      rewrite lookup_alter_eq.
      destruct (ls !! k) as [l|]; cbn; destruct (decide (k ∈ keys)); try done.
      apply callbacks_delete_idem.
    + rewrite lookup_alter_ne by done.
      destruct (decide (key ∈ keys)) as [Hin|Hnin].
      * rewrite decide_True; [done | by right].
      * rewrite decide_False; [done|]. intros [?|?]%elem_of_cons; done.
Qed.

Lemma callbacks_delete_add callback l :
  callback ∉ l → callbacks_delete callback (callbacks_add callback l) = l.
Proof.
  intros Hnin. unfold callbacks_add, callbacks_delete. rewrite decide_False by done.
  induction l as [|c l IH].
  - rewrite app_nil_l, filter_cons. by destruct (decide (callback ≠ callback)).
  - rewrite <- app_comm_cons, filter_cons. destruct (decide (c ≠ callback)) as [Hc|Hc].
    + f_equal. apply IH. intros ?. apply Hnin. by right.
    + exfalso. apply Hnin. apply dec_stable in Hc. subst. left.
Qed.

Lemma listeners_of_unsubscribe_subscribe keys callback s key :
  callback ∉ listeners_of key s →
  listeners_of key (unsubscribe keys callback (subscribe keys callback s))
  = listeners_of key s.
Proof.
  intros Hfresh. rewrite listeners_of_unsubscribe, listeners_of_subscribe.
  destruct (decide (key ∈ keys)); [|done]. by apply callbacks_delete_add.
Qed.

Lemma callbacks_add_NoDup callback l : NoDup l → NoDup (callbacks_add callback l).
Proof.
  intros Hl. unfold callbacks_add. destruct (decide (callback ∈ l)) as [Hin|Hnin]; [done|].
  apply NoDup_app. split; [done|]. split; [|apply NoDup_singleton].
  intros c Hc ->%list_elem_of_singleton. done.
Qed.

Lemma callbacks_delete_NoDup callback l : NoDup l → NoDup (callbacks_delete callback l).
Proof. intros Hl. by apply NoDup_filter. Qed.

(** The callbacks of a key form a set: no manager built with the
    methods holds a callback twice under one key. *)
Lemma listeners_NoDup_step (op : Op V C) s :
  (∀ key, NoDup (listeners_of key s)) → ∀ key, NoDup (listeners_of key (step op s)).
Proof.
  intros Hs key. destruct op as [k v|keys callback|keys callback|k f|]; cbn [step].
  - unfold set. destruct (decide (_state s !! k = Some v)); [apply Hs|].
    unfold _notify. cbn. destruct (_listeners s !! k); apply Hs.
  - rewrite listeners_of_subscribe.
    destruct (decide (key ∈ keys)); [apply callbacks_add_NoDup|]; apply Hs.
  - rewrite listeners_of_unsubscribe.
    destruct (decide (key ∈ keys)); [apply callbacks_delete_NoDup|]; apply Hs.
  - unfold getComputed. destruct (_computedCache s !! k); apply Hs.
  - apply Hs.
Qed.

Lemma listeners_NoDup_run (ops : list (Op V C)) s :
  (∀ key, NoDup (listeners_of key s)) → ∀ key, NoDup (listeners_of key (run ops s)).
Proof.
  revert s. induction ops as [|op ops IH]; intros s Hs; [exact Hs|].
  cbn. apply IH. by apply listeners_NoDup_step.
Qed.

Lemma reachable_listeners_NoDup s key : reachable s → NoDup (listeners_of key s).
Proof.
  intros (initialState & ops & ->). apply listeners_NoDup_run.
  intros k. unfold listeners_of, create. cbn. rewrite lookup_empty. apply NoDup_nil_2.
Qed.

(** [set] acts only on a change, and then tells each subscriber once.
    In a manager built with the methods, writing the value a key already
    has leaves the whole manager as it is (no call, computed values
    kept); writing a different value clears every computed value and
    makes one call [callback(value, key)] for each callback subscribed to
    the key, in subscription order, and no other call: no callback is
    called twice, however often it subscribed. *)
Theorem set_notifies_each_subscriber_once key (value : V) s :
  reachable s →
  (get key s = Some value → set key value s = s) ∧
  (get key s ≠ Some value →
   let calls := (λ callback, (callback, value, key)) <$> listeners_of key s in
   notified (set key value s) = notified s ++ calls ∧
   NoDup calls ∧
   (∀ callback, (callback, value, key) ∈ calls ↔ callback ∈ listeners_of key s) ∧
   _computedCache (set key value s) = ∅ ∧
   (∀ k, listeners_of k (set key value s) = listeners_of k s)).
Proof.
  intros Hs. split.
  - intros Heq. unfold set, get in *. by rewrite decide_True.
  - intros Hne calls. split; [by apply set_changed|].
    split.
    { apply NoDup_fmap_2; [|by apply reachable_listeners_NoDup].
      intros c1 c2 [=]. done. }
    split.
    { intros callback. unfold calls. rewrite list_elem_of_fmap. split.
      - intros (c & [=] & Hc). by subst.
      - intros Hc. by exists callback. }
    unfold set, get in *. rewrite decide_False by done.
    unfold _notify. cbn. destruct (_listeners s !! key); cbn; done.
Qed.

(** Subscribing a callback to some keys and then calling the function
    [subscribe] returned puts the callbacks of every key back as they
    were (for a callback that was not subscribed to those keys before);
    in between, the callback is registered for exactly those keys. *)
Theorem subscribe_then_unsubscribe keys callback s :
  (∀ key, callback ∉ listeners_of key s) →
  (∀ key, callback ∈ listeners_of key (subscribe keys callback s) ↔ key ∈ keys) ∧
  (∀ key, listeners_of key (unsubscribe keys callback (subscribe keys callback s))
          = listeners_of key s) ∧
  _state (unsubscribe keys callback (subscribe keys callback s)) = _state s ∧
  notified (unsubscribe keys callback (subscribe keys callback s)) = notified s.
Proof.
  intros Hfresh. split; [|split; [|done]].
  - intros key. rewrite listeners_of_subscribe.
    destruct (decide (key ∈ keys)) as [Hin|Hnin].
    + split; [done|]. intros _. unfold callbacks_add.
      destruct (decide (callback ∈ listeners_of key s)); [done|].
      apply elem_of_app. right. by apply list_elem_of_singleton.
    + split; [|done]. intros Hc. by apply Hfresh in Hc.
  - intros key. apply listeners_of_unsubscribe_subscribe, Hfresh.
Qed.

(** A subscribed callback is told of every change of its key, once;
    after unsubscribing it is told of none. *)
Theorem subscriber_is_notified_until_unsubscribed key callback (value : V) s :
  (∀ k, callback ∉ listeners_of k s) → get key s ≠ Some value →
  let s1 := subscribe [key] callback s in
  let s2 := unsubscribe [key] callback s1 in
  notified (set key value s1)
    = notified (set key value s) ++ [(callback, value, key)] ∧
  notified (set key value s2) = notified (set key value s).
Proof.
  intros Hfresh Hne. cbn zeta.
  rewrite !set_changed by done.
  rewrite listeners_of_unsubscribe_subscribe by apply Hfresh.
  rewrite listeners_of_subscribe.
  rewrite (decide_True (P := key ∈ [key])) by left.
  unfold callbacks_add. rewrite decide_False by apply Hfresh.
  split; [|done]. cbn. by rewrite fmap_app, app_assoc.
Qed.

(** [getComputed] computes a value once and then serves it from the
    cache, whatever function it is given; any [set] that changes the state
    (and [invalidateComputed]) makes the next call compute afresh on the
    state as it then is. *)
Theorem getComputed_is_cached_until_state_changes key (f g : gmap string V → C) s :
  let '(c, s1) := getComputed key f s in
  getComputed key g s1 = (c, s1) ∧
  _state s1 = _state s ∧
  fst (getComputed key g (invalidateComputed s1)) = g (_state s) ∧
  ∀ k (v : V), get k s ≠ Some v →
    fst (getComputed key g (set k v s1)) = g (<[k := v]> (_state s)).
Proof.
  unfold getComputed at 1. destruct (_computedCache s !! key) as [c|] eqn:Hc.
  - repeat split.
    + unfold getComputed. by rewrite Hc.
    + intros k v Hne. unfold set, get in *. rewrite decide_False by done.
      unfold _notify. cbn. destruct (_listeners s !! k); cbn; done.
  - repeat split.
    + unfold getComputed. cbn. by rewrite lookup_insert_eq.
    + intros k v Hne. unfold set, get in *. cbn. rewrite decide_False by done.
      unfold _notify. cbn. destruct (_listeners s !! k); cbn; done.
Qed.

End StateManagerFacts.

Section StateManagerWitnesses.
Import State.

Let s0 : StateManager Z Z := create (<["sliceCount" := 32]> (<["rotation" := 58]> ∅)).

Lemma set_then_get_witness :
  get "sliceCount" (set "sliceCount" 12 s0) = Some 12 ∧
  get "rotation" (set "sliceCount" 12 s0) = get "rotation" s0.
Proof.
  destruct (set_then_get "sliceCount" 12 s0) as (H1 & H2).
  split; [exact H1|]. apply H2. discriminate.
Defined.

Lemma set_notifies_each_subscriber_once_witness :
  let s := subscribe ["rotation"; "sliceCount"] 1%nat (subscribe ["rotation"] 1%nat s0) in
  set "rotation" 58 s = s ∧
  notified (set "rotation" 90 s) = [(1%nat, 90, "rotation")].
Proof.
  intros s.
  assert (reachable s) as Hs.
  { exists (<["sliceCount" := 32]> (<["rotation" := 58]> ∅)),
      [CallSubscribe ["rotation"] 1%nat; CallSubscribe ["rotation"; "sliceCount"] 1%nat].
    reflexivity. }
  destruct (set_notifies_each_subscriber_once "rotation" 58 s Hs) as (H1 & _).
  destruct (set_notifies_each_subscriber_once "rotation" 90 s Hs) as (_ & H2).
  split.
  - apply H1. reflexivity.
  - destruct H2 as (H2 & _); [vm_compute; discriminate|]. rewrite H2. reflexivity.
Defined.

Lemma subscribe_then_unsubscribe_witness :
  listeners_of "rotation"
    (unsubscribe ["rotation"; "sliceCount"] 1%nat
       (subscribe ["rotation"; "sliceCount"] 1%nat s0))
  = listeners_of "rotation" s0.
Proof.
  destruct (subscribe_then_unsubscribe ["rotation"; "sliceCount"] 1%nat s0) as (_ & H & _).
  - intros key. unfold listeners_of, s0, create. cbn. rewrite lookup_empty. cbn.
    apply not_elem_of_nil.
  - apply H.
Defined.

Lemma subscriber_is_notified_until_unsubscribed_witness :
  notified (set "rotation" 90 (subscribe ["rotation"] 1%nat s0))
  = notified (set "rotation" 90 s0) ++ [(1%nat, 90, "rotation")].
Proof.
  destruct (subscriber_is_notified_until_unsubscribed "rotation" 1%nat 90 s0) as (H & _).
  - intros key. unfold listeners_of, s0, create. cbn. rewrite lookup_empty. cbn.
    apply not_elem_of_nil.
  - vm_compute. discriminate.
  - exact H.
Defined.

Lemma getComputed_is_cached_until_state_changes_witness :
  fst (getComputed "center" (λ _, 2)
         (snd (getComputed "center" (λ st, default 0 (st !! "rotation")) s0))) = 58 ∧
  fst (getComputed "center" (λ st, default 0 (st !! "rotation"))
         (set "rotation" 90
            (snd (getComputed "center" (λ st, default 0 (st !! "rotation")) s0)))) = 90.
Proof.
  pose proof (getComputed_is_cached_until_state_changes "center"
                (λ st, default 0 (st !! "rotation"))
                (λ _, 2) s0) as H1.
  pose proof (getComputed_is_cached_until_state_changes "center"
                (λ st, default 0 (st !! "rotation"))
                (λ st, default 0 (st !! "rotation")) s0) as H2.
  destruct (getComputed "center" (λ st, default 0 (st !! "rotation")) s0) as [c s1] eqn:Hg.
  destruct H1 as (H1 & _). destruct H2 as (_ & _ & _ & H2).
  assert (c = 58) as -> by (vm_compute in Hg; congruence).
  split.
  - cbn [snd]. by rewrite H1.
  - cbn [snd]. rewrite H2; [reflexivity | vm_compute; discriminate].
Defined.

End StateManagerWitnesses.

(** ** More of the gesture handlers *)

Section MoreGestures.
Context {num : Type} `{JSNumber num} {E : Type} `{NoteEngine E}.

Lemma activateSlice_state index (m : Manager num E) :
  rotation (activateSlice index m) = rotation m ∧
  sliceCount (activateSlice index m) = sliceCount m ∧
  lastAngle (dragState (activateSlice index m)) = lastAngle (dragState m) ∧
  lastRotationSlice (dragState (activateSlice index m)) = lastRotationSlice (dragState m) ∧
  lastTouchedSlice (dragState (activateSlice index m)) = lastTouchedSlice (dragState m).
Proof.
  unfold activateSlice. destruct (engine_isLocked index (audio m)); [done|].
  cbn. by destruct (getSliceElement index _).
Qed.

Lemma deactivateSlice_state index (m : Manager num E) :
  rotation (deactivateSlice index m) = rotation m ∧
  sliceCount (deactivateSlice index m) = sliceCount m ∧
  lastAngle (dragState (deactivateSlice index m)) = lastAngle (dragState m) ∧
  lastRotationSlice (dragState (deactivateSlice index m)) = lastRotationSlice (dragState m) ∧
  lastTouchedSlice (dragState (deactivateSlice index m)) = lastTouchedSlice (dragState m) ∧
  audio (deactivateSlice index m) = engine_stopNote index (audio m).
Proof. unfold deactivateSlice. cbn. by destruct (getSliceElement index _). Qed.

Lemma activateSliceAtPosition_state a (m : Manager num E) :
  rotation (activateSliceAtPosition a m) = rotation m ∧
  lastAngle (dragState (activateSliceAtPosition a m)) = lastAngle (dragState m).
Proof.
  unfold activateSliceAtPosition.
  set (i := Geometry.getSliceIndexAtPoint a (rotation m) (sliceCount m)).
  set (m1 := match lastRotationSlice (dragState m) with
             | Some last => if bool_decide (last ≠ i) then deactivateSlice last m else m
             | None => m
             end).
  assert (rotation m1 = rotation m ∧ lastAngle (dragState m1) = lastAngle (dragState m))
    as (Hr & Ha).
  { unfold m1. destruct (lastRotationSlice (dragState m)) as [last|]; [|done].
    destruct (bool_decide (last ≠ i)); [|done].
    by destruct (deactivateSlice_state last m) as (? & _ & ? & _). }
  destruct (bool_decide (Some i ≠ lastRotationSlice (dragState m1))); [|done].
  cbn. destruct (activateSlice_state i m1) as (-> & _ & -> & _). done.
Qed.

End MoreGestures.

(** ** Rotation moves in binary64: NaN *)

Section RotationNaN.
Context {E : Type} `{NoteEngine E}.

Lemma float_add_nan_l (x : float) : PrimFloat.add nan x = nan.
Proof.
  rewrite <- (SF2Prim_Prim2SF (PrimFloat.add nan x)), add_spec.
  reflexivity.
Qed.

Lemma float_add_nan_r (x : float) : PrimFloat.add x nan = nan.
Proof.
  rewrite <- (SF2Prim_Prim2SF (PrimFloat.add x nan)), add_spec.
  change (Prim2SF nan) with S754_nan.
  by destruct (Prim2SF x) as [| [] | | ].
Qed.

Lemma float_sub_nan_l (x : float) : PrimFloat.sub nan x = nan.
Proof.
  rewrite <- (SF2Prim_Prim2SF (PrimFloat.sub nan x)), sub_spec.
  reflexivity.
Qed.

Lemma float_sub_nan_r (x : float) : PrimFloat.sub x nan = nan.
Proof.
  rewrite <- (SF2Prim_Prim2SF (PrimFloat.sub x nan)), sub_spec.
  change (Prim2SF nan) with S754_nan.
  by destruct (Prim2SF x) as [| [] | | ].
Qed.

Lemma handleRotation_rotation (currentAngle : float) (m : Manager float E) :
  ∃ angleDiff,
    rotation (handleRotation currentAngle m)
    = float_rem (rotation m + angleDiff + float_of_Z 360) (float_of_Z 360) ∧
    (currentAngle = nan ∨ lastAngle (dragState m) = nan → angleDiff = nan) ∧
    lastAngle (dragState (handleRotation currentAngle m)) = currentAngle.
Proof.
  unfold handleRotation. cbn zeta.
  set (d0 := num_sub currentAngle (lastAngle (dragState m))).
  set (d1 := if num_gtb d0 (num_of_Z 180) then num_sub d0 (num_of_Z 360) else d0).
  set (d2 := if num_ltb d1 (num_of_Z (-180)) then num_add d1 (num_of_Z 360) else d1).
  set (r := num_rem _ _).
  set (m1 := with_dragState (set_lastAngle currentAngle) (set_rotation r m)).
  assert (rotation (if startedFromSlice (dragState m1)
                    then activateSliceAtPosition currentAngle m1 else m1) = r ∧
          lastAngle (dragState (if startedFromSlice (dragState m1)
                                then activateSliceAtPosition currentAngle m1 else m1))
          = currentAngle) as (Hr & Ha).
  { destruct (startedFromSlice (dragState m1)); [|done].
    destruct (activateSliceAtPosition_state currentAngle m1) as (-> & ->). done. }
  exists d2. split; [exact Hr|]. split; [|exact Ha].
  intros Hnan.
  assert (d0 = nan) as Hd0.
  { unfold d0. cbn. destruct Hnan as [->| ->];
      [apply float_sub_nan_l | apply float_sub_nan_r]. }
  assert (d1 = nan) as Hd1.
  { unfold d1. rewrite Hd0. vm_compute. reflexivity. }
  unfold d2. rewrite Hd1. vm_compute. reflexivity.
Qed.

Lemma handleRotation_NaN (currentAngle : float) (m : Manager float E) :
  currentAngle = nan ∨ lastAngle (dragState m) = nan ∨ rotation m = nan →
  rotation (handleRotation currentAngle m) = nan.
Proof.
  intros Hnan. destruct (handleRotation_rotation currentAngle m) as (d & -> & Hd & _).
  assert (rotation m + d = nan)%float as ->.
  { destruct Hnan as [Hc|[Hl| ->]].
    - rewrite Hd by (by left). apply float_add_nan_r.
    - rewrite Hd by (by right). apply float_add_nan_r.
    - apply float_add_nan_l. }
  rewrite float_add_nan_l. reflexivity.
Qed.

(** In binary64 a rotation does not recover from a NaN.  If the pointer
    angle is NaN (as for a position the handlers could not read), or the
    baseline angle or the rotation already is, the rotation move makes
    the rotation NaN, and it is still NaN after any further rotation
    moves, whatever their angles. *)
Theorem handleRotation_never_recovers_from_NaN (currentAngle : float)
    (m : Manager float E) (later : list float) :
  currentAngle = nan ∨ lastAngle (dragState m) = nan ∨ rotation m = nan →
  rotation (handleRotation currentAngle m) = nan ∧
  lastAngle (dragState (handleRotation currentAngle m)) = currentAngle ∧
  rotation (fold_left (λ m a, handleRotation a m) later (handleRotation currentAngle m)) = nan.
Proof.
  intros Hnan. apply handleRotation_NaN in Hnan.
  split; [exact Hnan|].
  split; [by destruct (handleRotation_rotation currentAngle m) as (d & _ & _ & ?)|].
  revert Hnan. generalize (handleRotation currentAngle m). clear m.
  induction later as [|a later IH]; intros m Hm; [exact Hm|].
  cbn [fold_left]. apply IH. apply handleRotation_NaN. by right; right.
Qed.

End RotationNaN.

Lemma handleRotation_never_recovers_from_NaN_witness :
  let m : Manager float Audio.World :=
    mkManager (set_startedFromSlice true (set_isRotating true initialDragState))
      32 58%float Audio.initial [] in
  rotation (handleRotation 10%float m) = 68%float ∧
  rotation (fold_left (λ m a, handleRotation a m) [20%float; 30%float]
              (handleRotation nan m)) = nan.
Proof.
  intros m. split; [vm_compute; reflexivity|].
  destruct (handleRotation_never_recovers_from_NaN nan m [20%float; 30%float])
    as (_ & _ & Hlater).
  - left. reflexivity.
  - exact Hlater.
Defined.

(** ** Releasing, unlocking and dragging with the engine of audio.js *)

Section GesturesAndNotes.
Import Audio.
Context {num : Type} `{JSNumber num}.
Implicit Types (m : Manager num World).

Lemma tag_stopNote_other index j force w :
  j ≠ index → tag j (stopNote index force w) = tag j w.
Proof.
  intros Hne. unfold stopNote.
  destruct (bool_decide _ && negb force); [done|].
  destruct (activeNotes w !! index).
  - cbn. destruct (synth w); cbn;
      (destruct (lockTimeouts w !! index); unfold tag; cbn;
       by rewrite lookup_delete_ne).
  - destruct (pendingNotes w !! index); [|done].
    unfold tag; cbn. by rewrite lookup_insert_ne.
Qed.

Lemma settled_release index (m : Manager num World) :
  Inv (audio m) → settled index (audio (releaseSlice_unless_locked index m)).
Proof.
  intros [H1 _ _ _ _ _ _]. unfold releaseSlice_unless_locked.
  change (engine_isLocked index (audio m)) with (isLocked index (audio m)).
  unfold isLocked. case_bool_decide as Hl.
  - left. unfold tag. destruct Hl as [n ->]. done.
  - right. cbn. change (engine_stopNote index (audio m)) with (stopNote index false (audio m)).
    assert (lockedDrones (audio m) !! index = None) as Hln.
    { destruct (lockedDrones (audio m) !! index); [|done]. exfalso. apply Hl. eauto. }
    unfold stopNote. rewrite Hln. cbn.
    destruct (activeNotes (audio m) !! index) as [n|] eqn:Ha.
    + assert (pendingNotes (audio m) !! index = None) as Hp.
      { destruct (pendingNotes (audio m) !! index) eqn:Hp; [|done].
        rewrite H1 in Ha by eauto. done. }
      destruct (synth (audio m)); cbn;
        (destruct (lockTimeouts (audio m) !! index); unfold cancelled; cbn;
         rewrite lookup_delete_eq, Hln, Hp; by repeat split).
    + destruct (pendingNotes (audio m) !! index) as [p|] eqn:Hp.
      * unfold cancelled; cbn. rewrite Ha, Hln, lookup_insert_eq.
        repeat split; try done. by intros p' [= <-].
      * unfold cancelled. rewrite Ha, Hln, Hp. by repeat split.
Qed.

Lemma settled_release_other index j (m : Manager num World) :
  Inv (audio m) → settled index (audio m) →
  settled index (audio (releaseSlice_unless_locked j m)).
Proof.
  intros Hinv Hs. destruct (decide (j = index)) as [->|Hne]; [by apply settled_release|].
  unfold releaseSlice_unless_locked.
  destruct (engine_isLocked j (audio m)); [done|]. cbn.
  change (engine_stopNote j (audio m)) with (stopNote j false (audio m)).
  destruct Hs as [Ht|Hc].
  - left. by rewrite tag_stopNote_other.
  - right. by apply (cancelled_step index (Stop j false)).
Qed.

Lemma Inv_release j (m : Manager num World) :
  Inv (audio m) → Inv (audio (releaseSlice_unless_locked j m)).
Proof.
  intros Hinv. unfold releaseSlice_unless_locked.
  destruct (engine_isLocked j (audio m)); [done|]. cbn. by apply Inv_stopNote.
Qed.

Lemma Inv_release_all l (m : Manager num World) :
  Inv (audio m) → Inv (audio (fold_left (λ m i, releaseSlice_unless_locked i m) l m)).
Proof.
  revert m. induction l as [|j l IH]; intros m Hinv; cbn; [done|].
  by apply IH, Inv_release.
Qed.

Lemma settled_release_all index l (m : Manager num World) :
  Inv (audio m) → (index ∈ l ∨ settled index (audio m)) →
  settled index (audio (fold_left (λ m i, releaseSlice_unless_locked i m) l m)).
Proof.
  revert m. induction l as [|j l IH]; intros m Hinv Hs; cbn.
  - destruct Hs as [Hin|Hs]; [by apply elem_of_nil in Hin | done].
  - apply IH; [by apply Inv_release|].
    destruct Hs as [Hin|Hs].
    + apply elem_of_cons in Hin as [->|Hin]; [right; by apply settled_release | by left].
    + right. by apply settled_release_other.
Qed.

Lemma tag_playNote_other index j cb w :
  j ≠ index → tag j (playNote index cb w) = tag j w.
Proof.
  intros Hne. unfold playNote.
  destruct (lockedDrones w !! index); [done|].
  destruct (activeNotes w !! index); [done|].
  unfold init, _doInit. cbn.
  destruct (initPromise w); cbn; [|destruct (synth w); cbn];
    unfold tag; cbn; by rewrite lookup_insert_ne.
Qed.

Lemma isLocked_tag index w : isLocked index w = true ↔ tag index w = Locked.
Proof.
  unfold isLocked, tag. rewrite bool_decide_eq_true.
  destruct (lockedDrones w !! index); [split; eauto|].
  split; [by intros [? ?]|].
  destruct (activeNotes w !! index); [done|]. by destruct (pendingNotes w !! index).
Qed.

Lemma unlockDrone_locked index w :
  reachable w → tag index w = Locked →
  tag index (unlockDrone index w) = Idle ∧
  synthLog (unlockDrone index w) = synthLog w ++ [TriggerRelease (getNote index)] ∧
  suspended (unlockDrone index w) = suspended w.
Proof.
  intros Hr Ht. pose proof (sounding_has_synth index w Hr (or_intror Ht)) as Hs.
  pose proof (reachable_Inv w Hr) as [_ H2 _ _ _ _ H7].
  destruct (tag_Locked_inv _ _ Ht) as [n Hl].
  assert (pendingNotes w !! index = None) as Hp.
  { destruct (pendingNotes w !! index) eqn:Hp; [|done]. rewrite H2 in Hl by eauto. done. }
  rewrite (H7 _ _ Hl) in Hl.
  unfold unlockDrone. rewrite Hl. cbn. rewrite Hs. cbn.
  repeat split. apply tag_Idle. cbn. by rewrite !lookup_delete_eq.
Qed.

(** A pointer-down on a locked slice unlocks it and does nothing else:
    the drone is released and its index is Idle, no gesture is started,
    no note is started, and the renderer is told to unlock the slice. *)
Theorem tap_on_locked_slice_unlocks (e : PointerEvent num) (m : Manager num World) index :
  reachable (audio m) → target e = TSlice index → tag index (audio m) = Locked →
  let m' := handleStart e m in
  dragState m' = dragState m ∧
  tag index (audio m') = Idle ∧
  synthLog (audio m') = synthLog (audio m) ++ [TriggerRelease (getNote index)] ∧
  suspended (audio m') = suspended (audio m) ∧
  visual m' = visual m ++ [UnlockSlice index].
Proof.
  intros Hr He Ht. cbn zeta. unfold handleStart. rewrite He.
  change (engine_isLocked index (audio m)) with (isLocked index (audio m)).
  rewrite (proj2 (isLocked_tag index (audio m)) Ht). cbn.
  change (engine_unlockDrone index (audio m)) with (unlockDrone index (audio m)).
  destruct (unlockDrone_locked index (audio m) Hr Ht) as (? & ? & ?). done.
Qed.

Lemma stopNote_active index w :
  reachable w → tag index w = Active →
  tag index (stopNote index false w) = Idle ∧
  synthLog (stopNote index false w) = synthLog w ++ [TriggerRelease (getNote index)].
Proof.
  intros Hr Ht. pose proof (sounding_has_synth index w Hr (or_introl Ht)) as Hs.
  pose proof (reachable_Inv w Hr) as [H1 _ _ _ _ H6 _].
  destruct (tag_Active_inv _ _ Ht) as [Hl [n Ha]].
  assert (pendingNotes w !! index = None) as Hp.
  { destruct (pendingNotes w !! index) eqn:Hp; [|done]. rewrite H1 in Ha by eauto. done. }
  rewrite (H6 _ _ Ha) in Ha.
  unfold stopNote. rewrite Hl, Ha, Hs. cbn.
  destruct (lockTimeouts w !! index); cbn;
    (split; [apply tag_Idle; cbn; by rewrite lookup_delete_eq | done]).
Qed.

(** Dragging from a sounding slice onto another, idle one stops the
    first and starts the second: the first becomes Idle with one release,
    the second Pending, and the second is now the slice under the
    pointer. *)
Theorem drag_onto_next_slice_hands_over (m : Manager num World) a b :
  reachable (audio m) → a ≠ b →
  lastTouchedSlice (dragState m) = Some a →
  tag a (audio m) = Active → tag b (audio m) = Idle →
  let m' := handleSliceDrag (TSlice b) m in
  tag a (audio m') = Idle ∧ tag b (audio m') = Pending ∧
  lastTouchedSlice (dragState m') = Some b ∧
  synthLog (audio m') = synthLog (audio m) ++ [TriggerRelease (getNote a)] ∧
  visual m' = visual m ++ [ReleaseSlice a; PressSlice b].
Proof.
  intros Hr Hne Hlast Ha Hb. cbn zeta. unfold handleSliceDrag. rewrite Hlast.
  rewrite bool_decide_eq_true_2 by congruence.
  destruct (deactivateSlice_state a m) as (_ & _ & _ & _ & _ & Hau).
  change (engine_stopNote a (audio m)) with (stopNote a false (audio m)) in Hau.
  destruct (stopNote_active a (audio m) Hr Ha) as (Ha1 & Hlog1).
  assert (tag b (stopNote a false (audio m)) = Idle) as Hb1.
  { by rewrite tag_stopNote_other. }
  set (m1 := with_dragState (set_lastTouchedSlice None) (deactivateSlice a m)).
  assert (audio m1 = stopNote a false (audio m)) as Hau1 by (by rewrite <- Hau).
  assert (visual m1 = visual m ++ [ReleaseSlice a]) as Hv1.
  { unfold m1, deactivateSlice. cbn. by destruct (getSliceElement a _). }
  assert (lastTouchedSlice (dragState m1) = None) as Hlt1 by done.
  clearbody m1.
  change (engine_isLocked b (audio m1)) with (isLocked b (audio m1)).
  assert (isLocked b (audio m1) = false) as Hnl.
  { destruct (isLocked b (audio m1)) eqn:Hil; [|done].
    apply isLocked_tag in Hil. rewrite Hau1 in Hil. congruence. }
  rewrite Hnl, Hlt1. rewrite bool_decide_eq_true_2 by done.
  unfold activateSlice. change (engine_isLocked b (audio m1)) with (isLocked b (audio m1)).
  rewrite Hnl. cbn.
  change (engine_playNote b ?w) with (playNote b true w).
  apply tag_Idle in Hb1 as (Hbl & Hba & Hbp).
  destruct (playNote_start b true (stopNote a false (audio m)) Hbl Hba)
    as (Hp2 & Ha2 & Hl2 & _ & _ & _ & _ & _ & Hlog2).
  destruct (getSliceElement b (call (PressSlice b) m1)); cbn; rewrite Hau1.
  all: repeat split.
  all: try (by rewrite tag_playNote_other).
  all: try (unfold tag; by rewrite Hl2, Hbl, Ha2, Hba, Hp2, lookup_insert_eq).
  all: try (by rewrite Hlog2, Hlog1).
  all: by rewrite Hv1, <- app_assoc.
Qed.

Lemma audio_handleEnd (m : Manager num World) :
  ¬ idle m →
  audio (handleEnd m)
  = audio (match lastRotationSlice (dragState m) with
           | Some last =>
               releaseSlice_unless_locked last
                 (fold_left (λ m i, releaseSlice_unless_locked i m) (pressedSlices (dragState m)) m)
           | None =>
               fold_left (λ m i, releaseSlice_unless_locked i m) (pressedSlices (dragState m)) m
           end).
Proof.
  intros Hni. unfold handleEnd.
  destruct (isDragging (dragState m) || isRotating (dragState m) || isPinching (dragState m))
    eqn:Hf.
  - cbn. by destruct (isRotating (dragState m)).
  - exfalso. apply Hni.
    apply orb_false_iff in Hf as [[? ?]%orb_false_iff ?]. by repeat split.
Qed.

(** "No stuck notes": when the global release handler ends a gesture,
    every slice in the pressed set, and the slice last reached by a
    rotation sweep, is either Locked or silenced: not active, and a start
    of it that is still waiting for the audio context resumes without
    sounding and leaves it Idle. *)
Theorem handleEnd_leaves_no_pressed_slice_sounding (m : Manager num World) index :
  reachable (audio m) → ¬ idle m →
  index ∈ pressedSlices (dragState m) ∨ lastRotationSlice (dragState m) = Some index →
  let w' := audio (handleEnd m) in
  tag index w' = Locked ∨
  (tag index w' ≠ Active ∧
   ∀ call k, suspended w' !! call = Some k → k_index k = index →
     synthLog (resume call w') = synthLog w' ∧ tag index (resume call w') = Idle).
Proof.
  intros Hr Hni Hin. cbn zeta.
  assert (settled index (audio (handleEnd m))) as Hs.
  { rewrite audio_handleEnd by done.
    pose proof (reachable_Inv _ Hr) as Hinv.
    pose proof (Inv_release_all (pressedSlices (dragState m)) m Hinv) as Hinv2.
    destruct (lastRotationSlice (dragState m)) as [last|] eqn:Hlast.
    - destruct (decide (last = index)) as [->|Hne].
      + by apply settled_release.
      + destruct Hin as [Hin|Hin]; [|congruence].
        apply settled_release_other; [done|].
        apply settled_release_all; [done | by left].
    - destruct Hin as [Hin|Hin]; [|done].
      apply settled_release_all; [done | by left]. }
  destruct Hs as [Ht|Hc]; [by left|right].
  split.
  - destruct Hc as (Ha & Hl & _). unfold tag. rewrite Hl, Ha.
    by destruct (pendingNotes _ !! index).
  - intros call k Hk Hi.
    destruct (resume_cancelled index call k _ Hc Hk Hi) as (? & _ & _ & _ & ?). done.
Qed.

Lemma set_delete_add (x : Z) (l : list Z) : x ∉ l → set_delete x (set_add x l) = l.
Proof.
  intros Hnin. unfold set_add, set_delete. rewrite bool_decide_eq_false_2 by done.
  induction l as [|c l IH].
  - rewrite app_nil_l, filter_cons. by destruct (decide (x ≠ x)).
  - rewrite <- app_comm_cons, filter_cons. destruct (decide (c ≠ x)) as [Hc|Hc].
    + f_equal. apply IH. intros ?. apply Hnin. by right.
    + exfalso. apply Hnin. apply dec_stable in Hc. subst. left.
Qed.

Lemma set_delete_absent (x : Z) (l : list Z) : x ∉ l → set_delete x l = l.
Proof.
  intros Hnin. unfold set_delete. induction l as [|c l IH]; [done|].
  rewrite filter_cons. destruct (decide (c ≠ x)) as [Hc|Hc].
  - f_equal. apply IH. intros ?. apply Hnin. by right.
  - exfalso. apply Hnin. apply dec_stable in Hc. subst. left.
Qed.

Lemma stopNote_suspended index force w :
  suspended (stopNote index force w) = suspended w.
Proof.
  unfold stopNote. destruct (bool_decide _ && negb force); [done|].
  destruct (activeNotes w !! index).
  - cbn. destruct (synth w); cbn; by destruct (lockTimeouts w !! index).
  - by destruct (pendingNotes w !! index).
Qed.

Lemma stopNote_pending_log index force w :
  tag index w = Pending → synthLog (stopNote index force w) = synthLog w.
Proof.
  unfold tag, stopNote. destruct (lockedDrones w !! index); [done|].
  destruct (activeNotes w !! index); [done|]. cbn.
  by destruct (pendingNotes w !! index).
Qed.

(** A keyboard tap (Enter or Space on a slice, released by the timeout
    350 ms later) never leaves the note sounding, whether the audio
    context becomes ready before the release (the note is attacked and
    then released) or only after it (the note is never attacked); the
    pressed set is as before the tap. *)
Theorem keyboard_tap_never_sticks (m : Manager num World) index :
  reachable (audio m) → tag index (audio m) = Idle →
  index ∉ pressedSlices (dragState m) →
  let ready := with_audio (resume (nextCall (audio m))) in
  let early := keyboardRelease index (ready (handleKeyboard index m)) in
  let late := ready (keyboardRelease index (handleKeyboard index m)) in
  (tag index (audio early) = Idle ∧
   synthLog (audio early)
     = synthLog (audio m) ++ [TriggerAttack (getNote index); TriggerRelease (getNote index)]) ∧
  (tag index (audio late) = Idle ∧ synthLog (audio late) = synthLog (audio m)) ∧
  pressedSlices (dragState early) = pressedSlices (dragState m) ∧
  pressedSlices (dragState late) = pressedSlices (dragState m).
Proof.
  intros Hr Ht Hnin. cbn zeta. unfold handleKeyboard, keyboardRelease.
  assert (isLocked index (audio m) = false) as Hnl.
  { destruct (isLocked index (audio m)) eqn:Hil; [|done].
    apply isLocked_tag in Hil. congruence. }
  set (w1 := playNote index true (audio m)).
  assert (audio (activateSlice index m) = w1) as Hau.
  { unfold activateSlice. change (engine_isLocked index (audio m)) with (isLocked index (audio m)).
    rewrite Hnl. cbn. by destruct (getSliceElement index _). }
  assert (pressedSlices (dragState (activateSlice index m))
          = match getSliceElement index m with
            | Some _ => set_add index (pressedSlices (dragState m))
            | None => pressedSlices (dragState m)
            end) as Hpr.
  { unfold activateSlice. change (engine_isLocked index (audio m)) with (isLocked index (audio m)).
    rewrite Hnl. unfold getSliceElement. cbn.
    by destruct ((0 <=? index) && (index <? sliceCount m)). }
  assert (sliceCount (activateSlice index m) = sliceCount m) as Hsc
    by (by destruct (activateSlice_state index m) as (_ & ? & _)).
  destruct (start_then_ready index true (audio m) Ht) as (Hp1 & Ha2 & Hlog2 & _).
  cbn zeta in *. fold w1 in Hp1, Ha2, Hlog2.
  assert (reachable w1) as Hr1 by (apply (reachable_step (Play index true)), Hr).
  assert (reachable (resume (nextCall (audio m)) w1)) as Hr2
    by (apply (reachable_step (Resume (nextCall (audio m)))), Hr1).
  destruct (stopNote_active index _ Hr2 Ha2) as (Hi3 & Hlog3).
  assert (suspended w1 !! nextCall (audio m)
          = Some {| k_index := index; k_onAutoLock := true |} ∧
          synthLog w1 = synthLog (audio m)) as (Hk & Hlog1).
  { apply tag_Idle in Ht as (Hl & Ha & _).
    destruct (playNote_start index true (audio m) Hl Ha)
      as (_ & _ & _ & _ & Hs & _ & _ & _ & Hlg).
    cbn zeta in Hs, Hlg. fold w1 in Hs, Hlg. by rewrite Hs, lookup_insert_eq. }
  pose proof (stopNote_pending_cancelled index false w1 Hp1) as Hc.
  destruct (resume_cancelled index (nextCall (audio m))
              {| k_index := index; k_onAutoLock := true |} (stopNote index false w1) Hc)
    as (Hlog4 & _ & _ & _ & Hi4); [by rewrite stopNote_suspended | done |].
  clearbody w1. set (m1 := activateSlice index m) in *. clearbody m1.
  assert (∀ m0 : Manager num World,
            sliceCount m0 = sliceCount m →
            pressedSlices (dragState m0) = pressedSlices (dragState m1) →
            pressedSlices (dragState (deactivateSlice index m0)) = pressedSlices (dragState m))
    as Hback.
  { intros m0 Hs0 Hp0. unfold deactivateSlice, getSliceElement. cbn. rewrite Hs0.
    destruct ((0 <=? index) && (index <? sliceCount m)) eqn:Hel; cbn.
    - rewrite Hp0, Hpr. unfold getSliceElement. rewrite Hel. by apply set_delete_add.
    - rewrite Hp0, Hpr. unfold getSliceElement. by rewrite Hel. }
  assert (∀ m0 : Manager num World,
            audio (deactivateSlice index m0) = stopNote index false (audio m0)) as Hstop.
  { intros m0. by destruct (deactivateSlice_state index m0) as (_ & _ & _ & _ & _ & ?). }
  repeat split.
  - rewrite (Hstop (with_audio (resume (nextCall (audio m))) m1)). cbn.
    rewrite Hau. exact Hi3.
  - rewrite (Hstop (with_audio (resume (nextCall (audio m))) m1)). cbn.
    rewrite Hau, Hlog3, Hlog2. by rewrite <- app_assoc.
  - cbn [audio with_audio]. rewrite (Hstop m1), Hau. exact Hi4.
  - cbn [audio with_audio]. rewrite (Hstop m1), Hau, Hlog4, <- Hlog1.
    by apply stopNote_pending_log.
  - by apply Hback.
  - cbn [dragState with_audio]. by apply Hback.
Qed.

End GesturesAndNotes.

Section GesturesAndNotesScenarios.
Import Audio.

Lemma handleEnd_leaves_no_pressed_slice_sounding_witness :
  let start : Manager Q World := Interaction.initial 32 58%Q Audio.initial in
  let down := {| target := TSlice 3; touches := None;
                 mouse := {| inRing := false; angle := 10%Q; element := TSlice 3 |};
                 touchDistance := 0%Q |} in
  let w' := audio (handleEnd (handleStart down start)) in
  tag 3 w' ≠ Locked ∧ tag 3 (resume 0 w') = Idle ∧ synthLog (resume 0 w') = [].
Proof.
  intros start down w'.
  destruct (handleEnd_leaves_no_pressed_slice_sounding (handleStart down start) 3)
    as [Hl|(_ & Hres)].
  - eexists. instantiate (1 := [Play 3 true]). reflexivity.
  - intros (Hd & _). vm_compute in Hd. discriminate.
  - left. vm_compute. left.
  - exfalso. vm_compute in Hl. discriminate.
  - split; [vm_compute; discriminate|].
    destruct (Hres 0%nat {| k_index := 3; k_onAutoLock := true |}) as (H1 & H2).
    + vm_compute. reflexivity.
    + reflexivity.
    + split; [exact H2|]. etransitivity; [exact H1|]. vm_compute. reflexivity.
Defined.

Lemma tap_on_locked_slice_unlocks_witness :
  let m : Manager Q World :=
    Interaction.initial 32 58%Q (run [Play 3 true; Resume 0; Fire 0] Audio.initial) in
  let down := {| target := TSlice 3; touches := None;
                 mouse := {| inRing := false; angle := 10%Q; element := TSlice 3 |};
                 touchDistance := 0%Q |} in
  tag 3 (audio m) = Locked ∧ tag 3 (audio (handleStart down m)) = Idle ∧
  dragState (handleStart down m) = dragState m.
Proof.
  intros m down. split; [vm_compute; reflexivity|].
  destruct (tap_on_locked_slice_unlocks down m 3) as (H1 & H2 & _).
  - eexists. reflexivity.
  - reflexivity.
  - vm_compute. reflexivity.
  - split; [exact H2 | exact H1].
Defined.

Lemma drag_onto_next_slice_hands_over_witness :
  let m : Manager Q World :=
    mkManager (set_lastTouchedSlice (Some 3) (set_isDragging true initialDragState))
      32 58%Q (run [Play 3 true; Resume 0] Audio.initial) [] in
  tag 3 (audio (handleSliceDrag (TSlice 4) m)) = Idle ∧
  tag 4 (audio (handleSliceDrag (TSlice 4) m)) = Pending.
Proof.
  intros m. destruct (drag_onto_next_slice_hands_over m 3 4) as (H1 & H2 & _).
  - eexists. reflexivity.
  - lia.
  - reflexivity.
  - vm_compute. reflexivity.
  - vm_compute. reflexivity.
  - split; [exact H1 | exact H2].
Defined.

Lemma keyboard_tap_never_sticks_witness :
  let m : Manager Q World := Interaction.initial 32 58%Q Audio.initial in
  tag 5 (audio (keyboardRelease 5 (with_audio (resume 0) (handleKeyboard 5 m)))) = Idle ∧
  tag 5 (audio (with_audio (resume 0) (keyboardRelease 5 (handleKeyboard 5 m)))) = Idle.
Proof.
  intros m. destruct (keyboard_tap_never_sticks m 5) as ((H1 & _) & (H2 & _) & _).
  - by exists [].
  - vm_compute. reflexivity.
  - apply not_elem_of_nil.
  - split; [exact H1 | exact H2].
Defined.

End GesturesAndNotesScenarios.

(** ** What changes the configuration *)

Section Configuration.
Context {num : Type} `{JSNumber num} {E : Type} `{NoteEngine E}.
Implicit Types (m : Manager num E).

Lemma same_configuration_refl m : same_configuration m m.
Proof. by repeat split. Qed.

Lemma same_configuration_trans m1 m2 m3 :
  same_configuration m1 m2 → same_configuration m2 m3 → same_configuration m1 m3.
Proof.
  intros (H1 & H2 & H3) (H4 & H5 & H6). repeat split; congruence.
Qed.

Lemma same_configuration_activateSlice index m :
  same_configuration m (activateSlice index m).
Proof. destruct (activateSlice_state index m) as (? & ? & ? & _). by repeat split. Qed.

Lemma same_configuration_deactivateSlice index m :
  same_configuration m (deactivateSlice index m).
Proof. destruct (deactivateSlice_state index m) as (? & ? & ? & _). by repeat split. Qed.

Lemma same_configuration_releaseSlice index m :
  same_configuration m (releaseSlice_unless_locked index m).
Proof.
  unfold releaseSlice_unless_locked.
  destruct (engine_isLocked index (audio m)); by repeat split.
Qed.

Lemma same_configuration_release_all l m :
  same_configuration m (fold_left (λ m index, releaseSlice_unless_locked index m) l m).
Proof.
  revert m. induction l as [|index l IH]; intros m; cbn [fold_left].
  - apply same_configuration_refl.
  - eapply same_configuration_trans; [apply same_configuration_releaseSlice|apply IH].
Qed.

Lemma same_configuration_handleEnd m : same_configuration m (handleEnd m).
Proof.
  unfold handleEnd.
  destruct (isDragging (dragState m) || isRotating (dragState m) || isPinching (dragState m));
    [|apply same_configuration_refl].
  set (m1 := fold_left _ _ m).
  assert (same_configuration m m1) as H1 by apply same_configuration_release_all.
  set (m2 := match lastRotationSlice (dragState m) with
             | Some last => releaseSlice_unless_locked last m1
             | None => m1
             end).
  assert (same_configuration m m2) as H2.
  { unfold m2. destruct (lastRotationSlice (dragState m)); [|done].
    eapply same_configuration_trans; [exact H1|apply same_configuration_releaseSlice]. }
  clearbody m2. clear H1 m1.
  set (m3 := if isRotating (dragState m) then call DeactivateGripper m2 else m2).
  assert (same_configuration m m3) as H3.
  { unfold m3. by destruct (isRotating (dragState m)). }
  clearbody m3. destruct H3 as (? & ? & ?). by repeat split.
Qed.

Lemma same_configuration_handleSliceDrag el m :
  same_configuration m (handleSliceDrag el m).
Proof.
  unfold handleSliceDrag.
  set (m1 := match lastTouchedSlice (dragState m) with
             | Some lastIndex => _
             | None => m
             end).
  assert (same_configuration m m1) as H1.
  { unfold m1. destruct (lastTouchedSlice (dragState m)) as [lastIndex|];
      [|apply same_configuration_refl].
    destruct (bool_decide _); [|apply same_configuration_refl].
    destruct (same_configuration_deactivateSlice lastIndex m) as (? & ? & ?).
    by repeat split. }
  clearbody m1.
  destruct el as [index| |]; try exact H1.
  destruct (engine_isLocked index (audio m1)); [exact H1|].
  destruct (bool_decide _); [|exact H1].
  eapply same_configuration_trans; [exact H1|].
  destruct (same_configuration_activateSlice index m1) as (? & ? & ?).
  by repeat split.
Qed.

Lemma same_configuration_startSliceDrag index m :
  same_configuration m (startSliceDrag index m).
Proof.
  unfold startSliceDrag.
  set (m1 := with_dragState _ m).
  destruct (same_configuration_activateSlice index m1) as (? & ? & ?).
  by repeat split.
Qed.

Lemma same_configuration_activateSliceAtPosition a m :
  same_configuration m (activateSliceAtPosition a m).
Proof.
  unfold activateSliceAtPosition.
  set (i := Geometry.getSliceIndexAtPoint a (rotation m) (sliceCount m)).
  set (m1 := match lastRotationSlice (dragState m) with
             | Some last => _
             | None => m
             end).
  assert (same_configuration m m1) as H1.
  { unfold m1. destruct (lastRotationSlice (dragState m)) as [last|];
      [|apply same_configuration_refl].
    destruct (bool_decide _); [|apply same_configuration_refl].
    apply same_configuration_deactivateSlice. }
  clearbody m1.
  destruct (bool_decide _); [|exact H1].
  eapply same_configuration_trans; [exact H1|].
  destruct (same_configuration_activateSlice i m1) as (? & ? & ?).
  by repeat split.
Qed.

(** A pinch move keeps rotation and baseline angle, and the slice count
    within [6, 72]. *)
Lemma handlePinch_configuration d m :
  6 ≤ sliceCount m ≤ 72 →
  6 ≤ sliceCount (handlePinch d m) ≤ 72 ∧
  rotation (handlePinch d m) = rotation m ∧
  lastAngle (dragState (handlePinch d m)) = lastAngle (dragState m).
Proof.
  intros Hn. unfold handlePinch.
  destruct (_ =? 0); [done|].
  destruct (_ =? sliceCount m); [done|].
  cbn. split; [|done]. unfold clamp_sliceCount. lia.
Qed.

Lemma handleRotation_sliceCount a m :
  sliceCount (handleRotation a m) = sliceCount m.
Proof.
  unfold handleRotation. cbn zeta.
  set (r := num_rem _ _).
  set (m1 := with_dragState (set_lastAngle a) (set_rotation r m)).
  destruct (startedFromSlice (dragState m1)); [|done].
  by destruct (same_configuration_activateSliceAtPosition a m1) as (-> & _).
Qed.

Lemma activateSliceAtPosition_isRotating a m :
  isRotating (dragState (activateSliceAtPosition a m)) = isRotating (dragState m).
Proof.
  unfold activateSliceAtPosition.
  set (i := Geometry.getSliceIndexAtPoint a (rotation m) (sliceCount m)).
  set (m2 := match lastRotationSlice (dragState m) with
             | Some last => _
             | None => m
             end).
  assert (isRotating (dragState m2) = isRotating (dragState m)) as <-.
  { unfold m2. destruct (lastRotationSlice (dragState m)) as [last|]; [|done].
    destruct (bool_decide _); [|done].
    unfold deactivateSlice. cbn. by destruct (getSliceElement last _). }
  clearbody m2.
  destruct (bool_decide _); [|done].
  cbn. by destruct (activateSlice_flags i m2) as (_ & -> & _).
Qed.

Lemma handleRotation_flags_and_angle a m :
  isRotating (dragState (handleRotation a m)) = isRotating (dragState m) ∧
  lastAngle (dragState (handleRotation a m)) = a.
Proof.
  unfold handleRotation. cbn zeta.
  set (r := num_rem _ _).
  set (m1 := with_dragState (set_lastAngle a) (set_rotation r m)).
  destruct (startedFromSlice (dragState m1)); [|done].
  rewrite activateSliceAtPosition_isRotating.
  by destruct (activateSliceAtPosition_state a m1) as (_ & ->).
Qed.

(** What [handleMove] does outside a pinch keeps the slice count, and
    changes the rotation only through [handleRotation]. *)
Lemma handleMove_outside_pinch (e : PointerEvent num) m :
  isPinching (dragState m)
    && (match two_or_more e with Some _ => true | None => false end) = false →
  sliceCount (handleMove e m) = sliceCount m ∧
  (rotation (handleMove e m) = rotation m ∨
   isRotating (dragState (handleMove e m)) = true ∧
   lastAngle (dragState (handleMove e m)) = angle (primary e)).
Proof.
  intros Hp. unfold handleMove. rewrite Hp. clear Hp.
  set (m1 := if isPinching (dragState m) && _ then leavePinch e m else m).
  assert (sliceCount m1 = sliceCount m ∧ rotation m1 = rotation m) as (Hn1 & Hr1).
  { unfold m1. destruct (isPinching (dragState m) && _); [|done].
    unfold leavePinch. cbn zeta.
    set (m0 := with_dragState _ m).
    destruct (inRing (primary e)); [done|].
    destruct (element (primary e)) as [index| |]; try done.
    by destruct (same_configuration_activateSlice index
                   (with_dragState (λ d, set_startedFromSlice true (set_isDragging true d)) m0))
      as (? & ? & _). }
  clearbody m1. rewrite <- Hn1, <- Hr1. clear Hn1 Hr1 m.
  destruct (negb (isDragging (dragState m1)) && _); [by split; [|left]|].
  cbn zeta.
  set (m2 := if inRing (primary e) && _ then _ else m1).
  assert (sliceCount m2 = sliceCount m1 ∧ rotation m2 = rotation m1) as (Hn2 & Hr2).
  { unfold m2. destruct (inRing (primary e) && _); [|done].
    destruct (lastTouchedSlice (dragState m1)) as [lastIndex|]; [|done].
    cbn. by destruct (deactivateSlice_state lastIndex m1) as (? & ? & _). }
  clearbody m2. rewrite <- Hn2, <- Hr2. clear Hn2 Hr2 m1.
  destruct (isRotating (dragState m2)) eqn:Hrot.
  - split; [apply handleRotation_sliceCount|]. right.
    destruct (handleRotation_flags_and_angle (angle (primary e)) m2) as (-> & ->). done.
  - destruct (isDragging (dragState m2)); [|by split; [|left]].
    destruct (same_configuration_handleSliceDrag (element (primary e)) m2) as (? & ? & _).
    by split; [|left].
Qed.

Lemma handleStart_configuration (e : PointerEvent num) m :
  sliceCount (handleStart e m) = sliceCount m ∧ rotation (handleStart e m) = rotation m.
Proof.
  unfold handleStart.
  set (lockedTap := match target e with TSlice index => _ | _ => None end).
  destruct lockedTap as [index|]; [done|].
  destruct (match two_or_more e with Some (t1, t2) => _ | None => false end); [done|].
  destruct (_ && inRing (primary e)); [done|].
  destruct (target e) as [index| |]; try done.
  by destruct (same_configuration_startSliceDrag index m) as (? & ? & _).
Qed.

(** Only a pinch changes the slice count and only a rotation move
    changes the rotation, for every interpretation of the numbers and
    every event.  Pointer-down, release, key press and key release keep
    both; a move changes the slice count only during a pinch with two
    touches (keeping it within [6, 72] and the rotation as it is), and it
    changes the rotation only by a rotation move, which leaves the session
    rotating with the pointer angle as its baseline. *)
Theorem only_pinch_and_rotation_change_the_configuration
    (e : PointerEvent num) (index : Z) m :
  6 ≤ sliceCount m ≤ 72 →
  let unchanged m' := sliceCount m' = sliceCount m ∧ rotation m' = rotation m in
  unchanged (handleStart e m) ∧ unchanged (handleEnd m) ∧
  unchanged (handleKeyboard index m) ∧ unchanged (keyboardRelease index m) ∧
  6 ≤ sliceCount (handleMove e m) ≤ 72 ∧
  (sliceCount (handleMove e m) ≠ sliceCount m →
   isPinching (dragState m) = true ∧ is_Some (two_or_more e) ∧
   rotation (handleMove e m) = rotation m) ∧
  (rotation (handleMove e m) ≠ rotation m →
   isRotating (dragState (handleMove e m)) = true ∧
   lastAngle (dragState (handleMove e m)) = angle (primary e) ∧
   sliceCount (handleMove e m) = sliceCount m).
Proof.
  intros Hn unchanged. unfold unchanged.
  split; [apply handleStart_configuration|].
  split; [by destruct (same_configuration_handleEnd m) as (? & ? & _)|].
  split; [by destruct (same_configuration_activateSlice index m) as (? & ? & _)|].
  split; [by destruct (same_configuration_deactivateSlice index m) as (? & ? & _)|].
  destruct (isPinching (dragState m)
            && (match two_or_more e with Some _ => true | None => false end)) eqn:Hp.
  - assert (handleMove e m = handlePinch (touchDistance e) m) as ->.
    { unfold handleMove. by rewrite Hp. }
    destruct (handlePinch_configuration (touchDistance e) m Hn) as (Hn' & Hr' & _).
    apply andb_true_iff in Hp as (Hp1 & Hp2).
    split; [exact Hn'|]. split; [|done].
    intros _. split; [exact Hp1|]. split; [|exact Hr'].
    by destruct (two_or_more e).
  - destruct (handleMove_outside_pinch e m Hp) as (Hn' & Hr').
    rewrite Hn'. split; [exact Hn|]. split; [done|].
    intros Hne. destruct Hr' as [?|(? & ?)]; done.
Qed.

End Configuration.

Lemma only_pinch_and_rotation_change_the_configuration_witness :
  let m : Manager float Audio.World :=
    mkManager (set_lastPinchDistance 200%float (set_isPinching true initialDragState))
      32 58%float Audio.initial [] in
  let touch := {| inRing := true; angle := 10%float; element := TInnerPlate |} in
  let move := {| target := TInnerPlate; touches := Some [touch; touch];
                 mouse := touch; touchDistance := 100%float |} in
  sliceCount (handleMove move m) = 37 ∧ 6 ≤ sliceCount (handleMove move m) ≤ 72 ∧
  rotation (handleMove move m) = rotation m.
Proof.
  intros m touch move.
  destruct (only_pinch_and_rotation_change_the_configuration move 0 m)
    as (_ & _ & _ & _ & Hn & Hp & _).
  - vm_compute. split; discriminate.
  - split; [vm_compute; reflexivity|]. split; [exact Hn|].
    apply Hp. vm_compute. discriminate.
Defined.
